(** * userservice/db.py: the [UserDb] helper over the [users] table

    A shallow embedding of [src/accounts/userservice/db.py].  The three
    methods of [UserDb] ([add_user], [generate_accountid], [get_user]) are
    functions over an explicit [world]: the rows of the [users] table, the
    engine's pending faults, the random source, the connection counter and
    the trace of what the code logs, records on its span and asks of the
    engine.  Python dictionaries are [gmap string value].

    The tracer's nested spans only delimit the steps of a method and are
    left out; what a method puts on its own span (attributes, events,
    recorded exceptions) is part of the trace.  The [while] loop of
    [generate_accountid] has no bound, so its embedding takes the number of
    rounds it may run and says so when they are used up. *)

From Stdlib Require Import ZArith.
From Stdlib.Strings Require Import Byte Ascii.
From stdpp Require Import gmap strings list fin_maps pretty.

Local Open Scope Z_scope.
Local Open Scope string_scope.

(** ** Values and the table definition *)

Record date := Date { year : Z; month : Z; day : Z }.

(** The Python values a field mapping holds: [None], [str], [bytes] and
    [datetime.date]. *)
Inductive value :=
  | VNone
  | VStr (s : string)
  | VBytes (b : list byte)
  | VDate (d : date).

Global Instance byte_eq_dec : EqDecision byte := Byte.byte_eq_dec.
Global Instance date_eq_dec : EqDecision date.
Proof. solve_decision. Defined.
Global Instance value_eq_dec : EqDecision value.
Proof. solve_decision. Defined.

(** The column types [db.py] imports from SQLAlchemy. *)
Inductive sqltype := TString | TLargeBinary | TDate.

Record column := Column {
  col_name : string;
  col_type : sqltype;
  col_primary_key : bool;
  col_unique : bool;
  col_nullable : bool
}.

(** [Column(name, type, primary_key=.., unique=.., nullable=..)]: a column
    is nullable unless it says otherwise or belongs to the primary key. *)
Definition mk_column (name : string) (ty : sqltype)
    (primary_key unique : bool) (nullable : option bool) : column :=
  Column name ty primary_key unique (default (negb primary_key) nullable).

(** [self.users_table] of [UserDb.__init__]. *)
Definition users_table : list column := [
  mk_column "accountid" TString true false None;
  mk_column "username" TString false true (Some false);
  mk_column "passhash" TLargeBinary false false (Some false);
  mk_column "firstname" TString false false (Some false);
  mk_column "lastname" TString false false (Some false);
  mk_column "birthday" TDate false false (Some false);
  mk_column "timezone" TString false false (Some false);
  mk_column "address" TString false false (Some false);
  mk_column "state" TString false false (Some false);
  mk_column "zip" TString false false (Some false);
  mk_column "ssn" TString false false (Some false)
].

Definition column_names : list string := col_name <$> users_table.

(** A stored row is a tuple, one value per column, in column order. *)
Definition row := list value.

(** [dict(result)]: the row as a mapping from column name to value. *)
Definition dict (r : row) : gmap string value :=
  list_to_map (zip column_names r).

(** The value a row holds in a column. *)
Definition row_get (name : string) (r : row) : option value :=
  dict r !! name.

(** ** Statements and errors *)

(** The two statements [db.py] builds:
    [users_table.insert().values(user)] and
    [users_table.select().where(users_table.c.<col> == v)]. *)
Inductive statement :=
  | Insert (values : gmap string value)
  | Select (col : string) (v : value).

Inductive violation :=
  | NotNullViolation (col : string)
  | UniqueViolation (col : string).

(** The subclasses of [SQLAlchemyError] the engine raises. *)
Inductive sa_error :=
  | CompileError (unconsumed : list string)
  | DataError (col : string)
  | IntegrityError (v : violation)
  | OperationalError (msg : string).

Definition is_duplicate_key (e : sa_error) : bool :=
  match e with
  | IntegrityError (UniqueViolation _) => true
  | _ => false
  end.

(** ** The table engine

    The engine is not code of [db.py]; it is modelled by the contract the
    table definition asks of it.  An INSERT is refused when the mapping
    names a column the table does not have, leaves a non-nullable column
    without a value, holds a value that is not of the column's type, or
    repeats the value of a primary-key or unique column; otherwise one row
    is appended. *)

Definition has_type (ty : sqltype) (v : value) : bool :=
  match ty, v with
  | _, VNone => true
  | TString, VStr _ => true
  | TLargeBinary, VBytes _ => true
  | TDate, VDate _ => true
  | _, _ => false
  end.

Definition is_none (v : value) : bool :=
  match v with VNone => true | _ => false end.

(** SQL's [=]: never true of NULL. *)
Definition value_eqb (a b : value) : bool :=
  negb (is_none a) && bool_decide (a = b).

Definition unconsumed (values : gmap string value) : list string :=
  filter (λ k, k ∉ column_names) (elements (dom values)).

(** Python's [d.get(key)]: the value, or [None] when the key is missing. *)
Definition dict_get (d : gmap string value) (key : string) : value :=
  default VNone (d !! key).

Definition field (values : gmap string value) (c : column) : value :=
  dict_get values (col_name c).

Definition row_of (values : gmap string value) : row :=
  field values <$> users_table.

(** [SELECT * FROM users WHERE col = v], rows in table order. *)
Definition select_where (col : string) (v : value) (t : list row) : list row :=
  filter (λ r, value_eqb (default VNone (row_get col r)) v = true) t.

Definition check_column (values : gmap string value) (c : column)
    : option sa_error :=
  let v := field values c in
  if is_none v && negb (col_nullable c)
  then Some (IntegrityError (NotNullViolation (col_name c)))
  else if negb (has_type (col_type c) v)
  then Some (DataError (col_name c))
  else None.

Definition check_unique (t : list row) (values : gmap string value)
    (c : column) : option sa_error :=
  if (col_primary_key c || col_unique c)
     && bool_decide (select_where (col_name c) (field values c) t ≠ [])
  then Some (IntegrityError (UniqueViolation (col_name c)))
  else None.

(** The first complaint of a check made of each element in turn. *)
Fixpoint first_error {A} (f : A → option sa_error) (l : list A)
    : option sa_error :=
  match l with
  | [] => None
  | x :: l' =>
    match f x with
    | Some e => Some e
    | None => first_error f l'
    end
  end.

Definition db_insert (values : gmap string value) (t : list row)
    : sa_error + list row :=
  match unconsumed values with
  | (_ :: _) as names => inl (CompileError names)
  | [] =>
    match first_error (check_column values) users_table with
    | Some e => inl e
    | None =>
      match first_error (check_unique t values) users_table with
      | Some e => inl e
      | None => inr (t ++ [row_of values])%list
      end
    end
  end.

(** ** The world the methods run in *)

Inductive attr :=
  | AStr (s : string)
  | ABool (b : bool)
  | AValue (v : value).

(** What a call leaves behind, in order: the logger's messages, what is
    recorded on the method's span, and the requests made of the engine. *)
Inductive event :=
  | LogDebug (msg : string)
  | LogQuery (s : statement)
  | SetAttribute (key : string) (a : attr)
  | AddEvent (name : string) (accountid : option string)
  | RecordException (e : sa_error)
  | EvCheckout (conn : nat)
  | EvExecute (conn : nat) (s : statement)
  | EvRelease (conn : nat).

Record world := World {
  table : list row;
  (** one entry per request made of the engine: [Some e] makes it raise [e] *)
  faults : list (option sa_error);
  (** the random source and how much of it has been read *)
  entropy : nat → Z;
  cursor : nat;
  next_conn : nat;
  trace : list event
}.

(** How a call ends.  [OutOfFuel] is not an outcome of the Python code: it
    marks a run of the [while] loop cut off before the loop ended. *)
Inductive outcome (A : Type) :=
  | Returned (a : A)
  | Raised (e : sa_error)
  | OutOfFuel.
Arguments Returned {A} a.
Arguments Raised {A} e.
Arguments OutOfFuel {A}.

Definition M (A : Type) : Type := world → outcome A * world.

Global Instance M_ret : MRet M := λ A a w, (Returned a, w).

Global Instance M_bind : MBind M := λ A B f m w,
  match m w with
  | (Returned a, w') => f a w'
  | (Raised e, w') => (Raised e, w')
  | (OutOfFuel, w') => (OutOfFuel, w')
  end.

Global Instance M_fmap : FMap M := λ A B f m, a ← m; mret (f a).

Definition raise {A} (e : sa_error) : M A := λ w, (Raised e, w).

Definition out_of_fuel {A} : M A := λ w, (OutOfFuel, w).

(** Updates of one field of the world. *)
Definition log (evs : list event) (w : world) : world :=
  World (table w) (faults w) (entropy w) (cursor w) (next_conn w)
        (trace w ++ evs).

Definition pop_fault (w : world) : world :=
  World (table w) (tail (faults w)) (entropy w) (cursor w) (next_conn w)
        (trace w).

Definition advance (w : world) : world :=
  World (table w) (faults w) (entropy w) (S (cursor w)) (next_conn w)
        (trace w).

Definition emit (ev : event) : M unit := λ w, (Returned (), log [ev] w).

(** [try: m  except SQLAlchemyError as err: handler err] *)
Definition try_except {A} (m : M A) (handler : sa_error → M A) : M A := λ w,
  match m w with
  | (Raised e, w') => handler e w'
  | r => r
  end.

(** [try: m  finally: cleanup], as a [with] block leaves its context. *)
Definition finally {A} (m : M A) (cleanup : M unit) : M A := λ w,
  match m w with
  | (Returned a, w') => (cleanup ;; mret a) w'
  | (Raised e, w') => (cleanup ;; raise e) w'
  | (OutOfFuel, w') => (OutOfFuel, w')
  end.

(** ** The engine's interface: [engine.connect()], [conn.execute()] *)

(** Every request made of the engine takes the next entry of [faults]. *)
Definition next_fault (w : world) : option sa_error := mjoin (head (faults w)).

Definition fault_check : M unit := λ w,
  match next_fault w with
  | Some e => (Raised e, pop_fault w)
  | None => (Returned (), pop_fault w)
  end.

Definition open_conn (w : world) : world :=
  World (table w) (faults w) (entropy w) (cursor w) (S (next_conn w))
        (trace w ++ [EvCheckout (next_conn w)]).

Definition checkout : M nat := λ w, (Returned (next_conn w), open_conn w).

(** [self.engine.connect()]: a connection checked out of the pool. *)
Definition connect : M nat := fault_check ;; checkout.

Definition release (conn : nat) : M unit := emit (EvRelease conn).

(** [with self.engine.connect() as conn: body conn] *)
Definition with_connection {A} (body : nat → M A) : M A :=
  conn ← connect; finally (body conn) (release conn).

Definition set_table (t : list row) : M unit := λ w,
  (Returned (),
   World t (faults w) (entropy w) (cursor w) (next_conn w) (trace w)).

Definition run_statement (s : statement) : M (list row) := λ w,
  match s with
  | Insert values =>
      match db_insert values (table w) with
      | inl e => (Raised e, w)
      | inr t => (set_table t ;; mret []) w
      end
  | Select col v => (Returned (select_where col v (table w)), w)
  end.

(** [conn.execute(statement)]: the rows of the result. *)
Definition execute (conn : nat) (s : statement) : M (list row) :=
  emit (EvExecute conn s) ;; fault_check ;; run_statement s.

(** [result.first()]: the first row of the result, or [None]. *)
Definition first (rows : list row) : option row := head rows.

(** [random.randint(lo, hi)]: the next draw of the random source, brought
    into [lo..hi], where the library promises its result to be. *)
Definition randint (lo hi : Z) : M Z := λ w,
  (Returned (lo + entropy w (cursor w) `mod` (hi - lo + 1)), advance w).

(** Python's [str] of an integer. *)
Definition str (n : Z) : string := pretty n.

(** [str(statement)]: the statement compiled to its SQL text.  An INSERT
    whose values name a column the table does not have does not compile:
    SQLAlchemy raises [CompileError] with the names it could not place.
    A SELECT of [db.py] always compiles. *)
Definition compile (s : statement) : M unit := λ w,
  match s with
  | Insert values =>
      match unconsumed values with
      | (_ :: _) as names => (Raised (CompileError names), w)
      | [] => (Returned (), w)
      end
  | Select _ _ => (Returned (), w)
  end.

(** [self.logger.debug('QUERY: %s', str(statement))]: the argument is
    evaluated first, so nothing is logged when the statement does not
    compile. *)
Definition log_query (s : statement) : M unit :=
  compile s ;; emit (LogQuery s).

(** ** The methods of [UserDb] *)

(** The handler of all three methods:
    [span.record_exception(err); raise err]. *)
Definition reraise {A} (err : sa_error) : M A :=
  emit (RecordException err) ;; raise err.

Definition add_user (user : gmap string value) : M unit :=
  emit (SetAttribute "db.system" (AStr "sqlalchemy")) ;;
  emit (SetAttribute "db.statement" (AStr "INSERT INTO users")) ;;
  emit (SetAttribute "user.username"
          (AValue (dict_get user "username"))) ;;
  let statement := Insert user in
  log_query statement ;;
  try_except
    (with_connection (λ conn,
       execute conn statement ;;
       emit (LogDebug "User added successfully.") ;;
       emit (SetAttribute "user.added" (ABool true))))
    reraise.

(** [while accountid is None: ...], at most [fuel] rounds of it. *)
Fixpoint while_accountid_is_none (fuel : nat) (conn : nat)
    (accountid : option string) {struct fuel} : M string :=
  match accountid with
  | Some a => mret a
  | None =>
    match fuel with
    | O => out_of_fuel
    | S fuel' =>
      n ← randint 1000000000 (10000000000 - 1);
      let accountid := str n in
      emit (SetAttribute "generated_accountid" (AStr accountid)) ;;
      let statement := Select "accountid" (VStr accountid) in
      log_query statement ;;
      result ← first <$> execute conn statement;
      accountid ←
        match result with
        | Some _ =>
          let accountid := None in
          emit (LogDebug "RESULT: account ID already exists. Trying again") ;;
          emit (AddEvent "Account ID exists, retrying" accountid) ;;
          mret accountid
        | None => mret (Some accountid)
        end;
      while_accountid_is_none fuel' conn accountid
    end
  end.

Definition generate_accountid (fuel : nat) : M string :=
  emit (LogDebug "Generating an account ID") ;;
  let accountid := None in
  try_except
    (accountid ← with_connection (λ conn,
                   while_accountid_is_none fuel conn accountid);
     emit (LogDebug "RESULT: account ID generated.") ;;
     emit (SetAttribute "generated.accountid" (AStr accountid)) ;;
     mret accountid)
    reraise.

Definition get_user (username : string) : M (option (gmap string value)) :=
  emit (SetAttribute "db.system" (AStr "sqlalchemy")) ;;
  emit (SetAttribute "db.statement" (AStr "SELECT FROM users")) ;;
  emit (SetAttribute "user.username" (AStr username)) ;;
  let statement := Select "username" (VStr username) in
  log_query statement ;;
  try_except
    (with_connection (λ conn,
       result ← first <$> execute conn statement;
       emit (LogDebug ("RESULT: fetched user data for " +:+ username)) ;;
       emit (SetAttribute "db.user_found"
               (ABool (bool_decide (is_Some result)))) ;;
       mret (dict <$> result)))
    reraise.


(** ** Reading a decimal string *)

Definition is_digit (c : ascii) : bool :=
  (48 <=? N_of_ascii c)%N && (N_of_ascii c <=? 57)%N.

Definition digit_value (c : ascii) : option Z :=
  if is_digit c then Some (Z.of_N (N_of_ascii c) - 48) else None.

(** The number a string of ASCII digits writes, most significant first. *)
Fixpoint numeric_value (s : string) : option Z :=
  match s with
  | EmptyString => Some 0
  | String c s' =>
    d ← digit_value c;
    v ← numeric_value s';
    Some (d * 10 ^ Z.of_nat (String.length s') + v)
  end.

Fixpoint all_digits (s : string) : bool :=
  match s with
  | EmptyString => true
  | String c s' => is_digit c && all_digits s'
  end.

(** ** Notions the statements use *)

(** A mapping the table accepts as a row: it names the table's columns and
    no others, and gives each a value of the column's type that is not
    [None] (every column of [users] is non-nullable). *)
Definition valid_user (user : gmap string value) : Prop :=
  dom user = list_to_set column_names
  ∧ Forall (λ c, is_none (field user c) = false
                 ∧ has_type (col_type c) (field user c) = true) users_table.

(** Some row of the table holds [v] in column [col]. *)
Definition has_value (col : string) (v : value) (t : list row) : Prop :=
  ∃ r, r ∈ t ∧ row_get col r = Some v.

Definition has_accountid (a : string) (t : list row) : Prop :=
  has_value "accountid" (VStr a) t.

(** The error the engine raises on the [i]-th request made of it from [w]
    on, if it raises one. *)
Definition fault_at (w : world) (i : nat) : option sa_error :=
  mjoin (faults w !! i).

(** No request of the engine is going to fail. *)
Definition healthy (w : world) : Prop := Forall (λ f, f = None) (faults w).

(** The [i]-th account id the random source yields from [w] on. *)
Definition candidate (w : world) (i : nat) : string :=
  str (1000000000 + entropy w (cursor w + i) `mod` 9000000000).

(** ** The rounds of the loop

    The worlds a call of [generate_accountid] goes through, written out;
    [loop_round] and [generate_accountid_run] below show that the code
    goes through them. *)

(** After [engine.connect()] has handed out a connection. *)
Definition connected (w : world) : world :=
  open_conn (pop_fault (log [LogDebug "Generating an account ID"] w)).

(** After the existence check of the next candidate on [conn]. *)
Definition checked (conn : nat) (w : world) : world :=
  let a := candidate w 0 in
  pop_fault
    (log [EvExecute conn (Select "accountid" (VStr a))]
       (log [LogQuery (Select "accountid" (VStr a))]
          (log [SetAttribute "generated_accountid" (AStr a)] (advance w)))).

(** After a round that found its candidate in the table. *)
Definition retried (conn : nat) (w : world) : world :=
  log [AddEvent "Account ID exists, retrying" None]
    (log [LogDebug "RESULT: account ID already exists. Trying again"]
       (checked conn w)).

(** After [k] such rounds. *)
Fixpoint retries (k : nat) (conn : nat) (w : world) : world :=
  match k with
  | O => w
  | S k' => retries k' conn (retried conn w)
  end.

(** After the loop has ended with [a] and the method is about to return. *)
Definition returned (conn : nat) (a : string) (w : world) : world :=
  log [SetAttribute "generated.accountid" (AStr a)]
    (log [LogDebug "RESULT: account ID generated."]
       (log [EvRelease conn] w)).

(** After the engine has raised [e] inside the loop and the handler has
    recorded it. *)
Definition failed (conn : nat) (e : sa_error) (w : world) : world :=
  log [RecordException e] (log [EvRelease conn] w).

(** After [engine.connect()] itself has raised [e]. *)
Definition refused (e : sa_error) (w : world) : world :=
  log [RecordException e]
    (pop_fault (log [LogDebug "Generating an account ID"] w)).

(** The events the loop may leave on connection [conn]. *)
Definition loop_event (conn : nat) (ev : event) : Prop :=
  match ev with
  | EvExecute c (Select col (VStr _)) => c = conn ∧ col = "accountid"
  | AddEvent _ a => a = None
  | SetAttribute _ _ | LogQuery _ | LogDebug _ => True
  | _ => False
  end.

(** What [generate_accountid] leaves on the trace once the loop is over. *)
Definition closing_events (conn : nat) (r : outcome string) : list event :=
  match r with
  | Returned a =>
      [EvRelease conn; LogDebug "RESULT: account ID generated.";
       SetAttribute "generated.accountid" (AStr a)]
  | Raised e => [EvRelease conn; RecordException e]
  | OutOfFuel => []
  end.

(** An event that is no request of the engine. *)
Definition off_engine (ev : event) : Prop :=
  match ev with
  | EvCheckout _ | EvExecute _ _ | EvRelease _ => False
  | _ => True
  end.

(** An event that may happen while [conn] is held and no other connection
    is taken or given back: statements are executed on [conn] only. *)
Definition on_connection (conn : nat) (ev : event) : Prop :=
  match ev with
  | EvExecute c _ => c = conn
  | EvCheckout _ | EvRelease _ => False
  | _ => True
  end.

(** What an error of [add_user] is when the mapping has gone to the
    engine unchanged and only the engine has refused it: the engine's
    refusal to connect, or an error raised once the INSERT of that very
    mapping has been handed to the engine on the call's connection. *)
Definition refused_by_engine (user : gmap string value) (w : world) : Prop :=
  ∀ e, (add_user user w).1 = Raised e →
       fault_at w 0 = Some e
       ∨ ∃ evs, trace (add_user user w).2 = (trace w ++ evs)%list
                ∧ EvExecute (next_conn w) (Insert user) ∈ evs.

(** ** Notions of the further properties *)

(** A row the table has accepted: the row of a valid mapping. *)
Definition row_ok (r : row) : Prop := ∃ user, valid_user user ∧ r = row_of user.

(** What the table definition promises of the table: every row is
    complete, and no account id and no username occurs twice. *)
Definition table_ok (t : list row) : Prop :=
  Forall row_ok t
  ∧ NoDup (row_get "accountid" <$> t)
  ∧ NoDup (row_get "username" <$> t).

(** A call of one of the methods of [UserDb]. *)
Inductive call :=
  | CallAddUser (user : gmap string value)
  | CallGenerateAccountid (fuel : nat)
  | CallGetUser (username : string).

(** The world a call leaves. *)
Definition after (c : call) (w : world) : world :=
  match c with
  | CallAddUser user => (add_user user w).2
  | CallGenerateAccountid fuel => (generate_accountid fuel w).2
  | CallGetUser username => (get_user username w).2
  end.

(** The world a sequence of calls leaves, first call first. *)
Definition after_all (cs : list call) (w : world) : world :=
  foldl (λ w c, after c w) w cs.

(** The worlds that calls of the methods lead to from an empty table. *)
Inductive reachable : world → Prop :=
  | reachable_empty w : table w = [] → reachable w
  | reachable_after c w : reachable w → reachable (after c w).

Definition is_request (ev : event) : bool :=
  match ev with
  | EvCheckout _ | EvExecute _ _ | EvRelease _ => true
  | _ => false
  end.

(** What a stretch of the trace asks of the engine. *)
Definition requests (evs : list event) : list event :=
  filter (λ ev, is_request ev = true) evs.

Definition is_execute (ev : event) : bool :=
  match ev with EvExecute _ _ => true | _ => false end.

(** The number of statements a trace has had executed. *)
Definition executed (evs : list event) : nat :=
  length (filter (λ ev, is_execute ev = true) evs).



(** ** Sample data *)

Definition alice : gmap string value :=
  list_to_map [
    ("accountid", VStr "1234567890"); ("username", VStr "alice");
    ("passhash", VBytes [x78]); ("firstname", VStr "A");
    ("lastname", VStr "B"); ("birthday", VDate (Date 1990 1 1));
    ("timezone", VStr "UTC"); ("address", VStr "1 Rd");
    ("state", VStr "CA"); ("zip", VStr "00000");
    ("ssn", VStr "000-00-0000")].

(** An empty table behind an engine that never fails; the random source
    yields 1234567890 first and 1000000005 ever after. *)
Definition empty_world : world :=
  World [] [] (λ i, if decide (i = 0%nat) then 234567890 else 5) 0 0 [].

(** [alice]'s username under another account id. *)
Definition alice_again : gmap string value :=
  <["accountid" := VStr "1111111111"]> alice.

(** The same with [alice]'s row in the table. *)
Definition seeded_world : world :=
  World [row_of alice] [] (entropy empty_world) 0 0 [].

(** [alice]'s row in the table and a random source that yields her
    account id for ever. *)
Definition stuck_world : world :=
  World [row_of alice] [] (λ _, 234567890) 0 0 [].

(** [alice]'s row in the table; the engine hands out a connection, answers
    one existence check and fails on the next. *)
Definition failing_world : world :=
  World [row_of alice] [None; None; Some (OperationalError "connection lost")]
        (λ _, 234567890) 0 0 [].

(** [alice]'s fields and one that is no column of the table. *)
Definition alice_nickname : gmap string value :=
  <["nickname" := VStr "Al"]> alice.

(** A mapping whose account id is no ten-digit number. *)
Definition carol : gmap string value :=
  <["username" := VStr "carol"]> (<["accountid" := VStr "abc"]> alice).

(** An empty table and a random source that counts up from 0. *)
Definition counting_world : world :=
  World [] [] (λ i, Z.of_nat i) 0 0 [].

(** [alice]'s fields under another username and the first account id of
    [counting_world]. *)
Definition dave : gmap string value :=
  <["username" := VStr "dave"]> (<["accountid" := VStr "1000000000"]> alice).

(** [alice]'s fields without a zip code. *)
Definition alice_no_zip : gmap string value := delete "zip" alice.

(** * Properties *)

(** ** [str] of an integer *)

Lemma pretty_N_char_value x :
  (x < 10)%N → digit_value (pretty_N_char x) = Some (Z.of_N x).
Proof.
  intros Hx.
  assert (Hcases : x ∈ [0; 1; 2; 3; 4; 5; 6; 7; 8; 9]%N).
  { rewrite !elem_of_cons. lia. }
  rewrite !elem_of_cons, elem_of_nil in Hcases.
  destruct_or!; subst; try done.
Qed.

Lemma numeric_value_all_digits s v :
  numeric_value s = Some v → all_digits s = true.
Proof.
  revert v. induction s as [|c s IH]; intros v; simpl; [done|].
  unfold digit_value. destruct (is_digit c); simpl; [|done].
  destruct (numeric_value s) as [v'|]; simpl; [|done].
  intros _. by apply (IH v').
Qed.

Lemma pretty_N_go_value x s v :
  numeric_value s = Some v →
  numeric_value (pretty_N_go x s)
  = Some (Z.of_N x * 10 ^ Z.of_nat (String.length s) + v).
Proof.
  revert s v. induction (N.lt_wf_0 x) as [x _ IH]; intros s v Hs.
  destruct (decide (x = 0)%N) as [->|Hx].
  { by rewrite pretty_N_go_0, Hs. }
  rewrite pretty_N_go_step by lia.
  assert (Hmod : (x `mod` 10 < 10)%N) by (apply N.mod_lt; lia).
  erewrite IH; [| apply N.div_lt; lia |]; last first.
  { simpl. by rewrite (pretty_N_char_value _ Hmod), Hs. }
  f_equal. simpl String.length.
  rewrite Nat2Z.inj_succ, Z.pow_succ_r by lia.
  pose proof (N.div_mod x 10 ltac:(lia)) as Hdm.
  rewrite N2Z.inj_div. rewrite N2Z.inj_mod.
  assert (Hz : Z.of_N x = 10 * (Z.of_N x `div` 10) + Z.of_N x `mod` 10).
  { apply Z.div_mod. lia. }
  change (Z.of_N 10) with 10. nia.
Qed.

Lemma pretty_N_go_length k x s :
  (10 ^ N.of_nat k ≤ x < 10 ^ N.of_nat (S k))%N →
  String.length (pretty_N_go x s) = (S k + String.length s)%nat.
Proof.
  revert x s. induction k as [|k IH]; intros x s [Hlo Hhi].
  - change (10 ^ N.of_nat 1)%N with 10%N in Hhi.
    change (10 ^ N.of_nat 0)%N with 1%N in Hlo.
    rewrite pretty_N_go_step by lia.
    rewrite N.div_small by lia. by rewrite pretty_N_go_0.
  - rewrite pretty_N_go_step.
    2:{ pose proof (N.pow_nonzero 10 (N.of_nat (S k))). lia. }
    rewrite IH; [simpl; lia|].
    rewrite Nat2N.inj_succ, N.pow_succ_r' in Hlo.
    rewrite (Nat2N.inj_succ (S k)), N.pow_succ_r' in Hhi.
    split.
    + apply N.div_le_lower_bound; lia.
    + apply N.Div0.div_lt_upper_bound; lia.
Qed.

(** [str n] for a ten-digit [n]. *)
Lemma str_ten_digits (n : Z) :
  (1000000000 ≤ n ≤ 9999999999)%Z →
  String.length (str n) = 10%nat ∧ all_digits (str n) = true
  ∧ numeric_value (str n) = Some n.
Proof.
  intros Hn. destruct n as [|p|p]; [lia| |lia].
  unfold str, pretty, pretty_Z, pretty, pretty_positive, pretty, pretty_N.
  destruct (decide (N.pos p = 0)%N) as [|_]; [done|].
  assert (Hv : numeric_value (pretty_N_go (N.pos p) "") = Some (Z.pos p)).
  { rewrite (pretty_N_go_value _ "" 0) by done. f_equal. simpl. lia. }
  split_and!; [|by eapply numeric_value_all_digits|done].
  rewrite (pretty_N_go_length 9); [done|].
  change (10 ^ N.of_nat 9)%N with 1000000000%N.
  change (10 ^ N.of_nat 10)%N with 10000000000%N. lia.
Qed.

(** ** Rows and mappings *)

Lemma column_names_NoDup : NoDup column_names.
Proof. by apply (bool_decide_unpack _). Qed.

Lemma zip_fmap_diag {A B C} (f : A → B) (g : A → C) (l : list A) :
  zip (f <$> l) (g <$> l) = (λ x, (f x, g x)) <$> l.
Proof. induction l as [|x l IH]; [done|]. simpl. by f_equal. Qed.

Lemma dict_row_of_lookup user k :
  k ∈ column_names → dict (row_of user) !! k = Some (dict_get user k).
Proof.
  intros Hk. unfold dict, row_of, column_names.
  rewrite zip_fmap_diag.
  apply list_elem_of_fmap in Hk as (c & -> & Hc).
  apply elem_of_list_to_map_1.
  - rewrite <-list_fmap_compose. apply column_names_NoDup.
  - apply list_elem_of_fmap. by exists c.
Qed.

Lemma dict_lookup_unknown r k : k ∉ column_names → dict r !! k = None.
Proof.
  intros Hk. apply not_elem_of_list_to_map_1. intros Hin. apply Hk.
  apply list_elem_of_fmap in Hin as ([k' v] & -> & Hin).
  by apply elem_of_zip_l in Hin.
Qed.

Lemma unconsumed_nil user k :
  unconsumed user = [] → is_Some (user !! k) → k ∈ column_names.
Proof.
  intros Hnil Hk. destruct (decide (k ∈ column_names)) as [|Hno]; [done|].
  assert (Hin : k ∈ unconsumed user).
  { apply list_elem_of_filter. split; [done|].
    by apply elem_of_elements, elem_of_dom. }
  rewrite Hnil in Hin. by apply elem_of_nil in Hin.
Qed.

(** A mapping that names only columns of the table and gives every column
    a value is read back from its row as it was. *)
Lemma dict_row_of user :
  unconsumed user = [] →
  Forall (λ c, is_none (field user c) = false) users_table →
  dict (row_of user) = user.
Proof.
  intros Hnil Hall. apply map_eq. intros k.
  destruct (decide (k ∈ column_names)) as [Hk|Hk].
  - rewrite dict_row_of_lookup by done.
    apply list_elem_of_fmap in Hk as (c & -> & Hc).
    rewrite Forall_forall in Hall. specialize (Hall c Hc).
    unfold field, dict_get in *. by destruct (user !! col_name c).
  - rewrite dict_lookup_unknown by done.
    destruct (user !! k) eqn:Hlk; [|done].
    destruct Hk. apply (unconsumed_nil user); [done|]. by rewrite Hlk.
Qed.

(** ** The table engine *)

Lemma value_eqb_true a b : value_eqb a b = true ↔ a = b ∧ b ≠ VNone.
Proof.
  unfold value_eqb. rewrite andb_true_iff, negb_true_iff, bool_decide_eq_true.
  split.
  - intros [Hnone ->]. split; [done|]. by intros ->.
  - intros [-> Hb]. split; [|done]. by destruct b.
Qed.

Lemma row_matches col v r :
  v ≠ VNone →
  value_eqb (default VNone (row_get col r)) v = true ↔ row_get col r = Some v.
Proof.
  intros Hv. rewrite value_eqb_true.
  destruct (row_get col r); simpl; split; intros; destruct_and?; simplify_eq; done.
Qed.

Lemma select_where_app col v t1 t2 :
  select_where col v (t1 ++ t2) = (select_where col v t1 ++ select_where col v t2)%list.
Proof. apply filter_app. Qed.

Lemma select_where_nil col v t :
  v ≠ VNone → select_where col v t = [] ↔ ¬ has_value col v t.
Proof.
  intros Hv. unfold has_value. induction t as [|r t IH].
  - split; [|done]. intros _ (r & Hr & _). by apply elem_of_nil in Hr.
  - unfold select_where in *. destruct (decide (row_get col r = Some v)) as [Hr|Hr].
    + rewrite filter_cons_True by by apply row_matches.
      split; [done|]. intros []. exists r. split; [left|done].
    + rewrite filter_cons_False by by rewrite row_matches.
      rewrite IH. split; intros Hno (r' & Hin & Hr'); apply Hno.
      * apply elem_of_cons in Hin as [->|Hin]; [done|]. by exists r'.
      * exists r'. split; [by right|done].
Qed.

Lemma select_where_elem col v r t :
  v ≠ VNone → r ∈ select_where col v t → r ∈ t ∧ row_get col r = Some v.
Proof.
  intros Hv Hr. apply list_elem_of_filter in Hr as [Hr Hin].
  split; [done|]. by apply row_matches in Hr.
Qed.

Lemma select_where_hit col v r t :
  v ≠ VNone → row_get col r = Some v →
  select_where col v (r :: t) = r :: select_where col v t.
Proof.
  intros Hv Hr. unfold select_where. rewrite filter_cons_True; [done|].
  by apply row_matches.
Qed.

Lemma first_error_None {A} (f : A → option sa_error) l :
  first_error f l = None ↔ Forall (λ x, f x = None) l.
Proof.
  induction l as [|x l IH]; simpl.
  - split; [constructor|done].
  - rewrite Forall_cons. destruct (f x) as [e|]; [|by rewrite IH; intuition].
    by split; [|intros []].
Qed.

Lemma filter_none {A} (P : A → Prop) `{!∀ x, Decision (P x)} (l : list A) :
  Forall (λ x, ¬ P x) l → filter P l = [].
Proof.
  induction 1 as [|x l Hx _ IH]; [done|]. by rewrite filter_cons_False.
Qed.

Lemma check_unique_users t user :
  first_error (check_unique t user) users_table
  = if bool_decide (select_where "accountid" (dict_get user "accountid") t ≠ [])
    then Some (IntegrityError (UniqueViolation "accountid"))
    else if bool_decide
              (select_where "username" (dict_get user "username") t ≠ [])
    then Some (IntegrityError (UniqueViolation "username"))
    else None.
Proof. unfold users_table, mk_column, check_unique, field. cbn.
  by repeat case_bool_decide. Qed.

Lemma users_table_not_nullable :
  Forall (λ c, col_nullable c = false) users_table.
Proof. repeat constructor. Qed.

Lemma valid_user_unconsumed user : valid_user user → unconsumed user = [].
Proof.
  intros [Hdom _]. apply filter_none, Forall_forall. intros k Hk Hno.
  apply Hno. apply elem_of_elements in Hk. rewrite Hdom in Hk.
  by apply elem_of_list_to_set in Hk.
Qed.

Lemma valid_user_columns user :
  valid_user user → first_error (check_column user) users_table = None.
Proof.
  intros [_ Hall]. apply first_error_None.
  eapply Forall_impl; [exact Hall|]. intros c [Hnone Hty]; simpl in *.
  unfold check_column. by rewrite Hnone, Hty.
Qed.

Lemma valid_user_keys user :
  valid_user user →
  dict_get user "accountid" ≠ VNone ∧ dict_get user "username" ≠ VNone.
Proof.
  intros [_ Hall]. unfold users_table in Hall.
  apply Forall_cons in Hall as [[Ha _] Hall].
  apply Forall_cons in Hall as [[Hu _] _].
  unfold field in *; simpl in *.
  split; intros Heq; rewrite Heq in *; done.
Qed.

Lemma valid_user_dict user : valid_user user → dict (row_of user) = user.
Proof.
  intros Hv. apply dict_row_of; [by apply valid_user_unconsumed|].
  destruct Hv as [_ Hall]. eapply Forall_impl; [exact Hall|]. by intros c [].
Qed.

(** What the engine makes of an INSERT of a valid mapping. *)
Lemma db_insert_accepts user t :
  valid_user user →
  ¬ has_value "accountid" (dict_get user "accountid") t →
  ¬ has_value "username" (dict_get user "username") t →
  db_insert user t = inr (t ++ [row_of user])%list.
Proof.
  intros Hv Ha Hu. destruct (valid_user_keys user Hv) as [Hna Hnu].
  unfold db_insert.
  rewrite (valid_user_unconsumed user Hv), (valid_user_columns user Hv).
  rewrite check_unique_users.
  apply select_where_nil in Ha, Hu; [|done..].
  rewrite Ha, Hu. by rewrite !bool_decide_eq_false_2 by (by intros []).
Qed.

Lemma db_insert_duplicate user t :
  valid_user user →
  has_value "accountid" (dict_get user "accountid") t
  ∨ has_value "username" (dict_get user "username") t →
  ∃ c, db_insert user t = inl (IntegrityError (UniqueViolation c)).
Proof.
  intros Hv Hdup. destruct (valid_user_keys user Hv) as [Hna Hnu].
  unfold db_insert.
  rewrite (valid_user_unconsumed user Hv), (valid_user_columns user Hv).
  rewrite check_unique_users.
  case_bool_decide as Ha; [by eexists|].
  case_bool_decide as Hu; [by eexists|].
  apply select_where_nil in Ha, Hu; [|done..].
  by destruct Hdup.
Qed.

(** An INSERT the engine accepts was of a valid mapping whose account id
    and username the table did not hold, and appends its row. *)
Lemma db_insert_inr user t t' :
  db_insert user t = inr t' →
  valid_user user
  ∧ ¬ has_value "accountid" (dict_get user "accountid") t
  ∧ ¬ has_value "username" (dict_get user "username") t
  ∧ t' = (t ++ [row_of user])%list.
Proof.
  unfold db_insert. destruct (unconsumed user) as [|??] eqn:Hun; [|done].
  destruct (first_error (check_column user) users_table) eqn:Hcols; [done|].
  rewrite check_unique_users.
  case_bool_decide as Ha; [done|]. case_bool_decide as Hu; [done|].
  intros [= <-].
  apply first_error_None in Hcols.
  assert (Hall : Forall (λ c, is_none (field user c) = false
             ∧ has_type (col_type c) (field user c) = true) users_table).
  { pose proof users_table_not_nullable as Hnn.
    rewrite Forall_forall in Hcols, Hnn. apply Forall_forall. intros c Hc.
    specialize (Hcols c Hc). specialize (Hnn c Hc). unfold check_column in Hcols.
    rewrite Hnn in Hcols. simpl in Hcols.
    destruct (is_none (field user c)); simpl in Hcols; [done|].
    by destruct (has_type (col_type c) (field user c)). }
  assert (Hv : valid_user user).
  { split; [|done]. apply set_eq. intros k.
    rewrite elem_of_dom, elem_of_list_to_set. split.
    - by apply unconsumed_nil.
    - intros Hk. apply list_elem_of_fmap in Hk as (c & -> & Hc).
      rewrite Forall_forall in Hall. destruct (Hall c Hc) as [Hnone _].
      unfold field, dict_get in Hnone. by destruct (user !! col_name c). }
  destruct (valid_user_keys user Hv) as [Hna Hnu].
  split_and!; [done| | |done]; by apply select_where_nil.
Qed.

(** ** Running the methods *)

Ltac unfold_M :=
  unfold with_connection, connect, execute, try_except, finally, reraise,
    release, log_query, compile, emit, raise, out_of_fuel, fault_check, checkout, run_statement,
    set_table, randint, first,
    fmap, M_fmap, mbind, M_bind, mret, M_ret in *.

Lemma db_insert_unconsumed user t k ks :
  unconsumed user = k :: ks → db_insert user t = inl (CompileError (k :: ks)).
Proof. intros Hun. unfold db_insert. by rewrite Hun. Qed.

Lemma add_user_outcome user w :
  (add_user user w).1
  = match unconsumed user with
    | (_ :: _) as names => Raised (CompileError names)
    | [] =>
      match next_fault w with
      | Some e => Raised e
      | None =>
        match next_fault (pop_fault w) with
        | Some e => Raised e
        | None =>
          match db_insert user (table w) with
          | inl e => Raised e
          | inr _ => Returned ()
          end
        end
      end
    end.
Proof.
  destruct w as [t fs en c nc tr]. unfold add_user. unfold_M.
  unfold next_fault, pop_fault, log.
  destruct (unconsumed user) as [|k ks]; cbn; [|done].
  destruct fs as [|[e|] [|[e'|] fs]]; cbn; try done;
    by destruct (db_insert user t).
Qed.

Lemma add_user_healthy user w :
  healthy w →
  ∃ w', add_user user w
        = (match db_insert user (table w) with
           | inl e => Raised e
           | inr _ => Returned ()
           end, w')
    ∧ table w' = match db_insert user (table w) with
                 | inl _ => table w
                 | inr t => t
                 end
    ∧ healthy w'.
Proof.
  destruct w as [t fs en c nc tr]. unfold healthy, add_user. unfold_M.
  unfold next_fault, pop_fault, log. intros Hfs.
  destruct (unconsumed user) as [|k ks] eqn:Hun; cbn in *.
  - destruct Hfs as [|? ? -> [|? ? -> Hfs]]; cbn;
      destruct (db_insert user t); cbn; eexists; (split; [reflexivity|]); cbn;
      by repeat constructor.
  - rewrite (db_insert_unconsumed user t k ks Hun). by eexists.
Qed.

Lemma get_user_outcome name w :
  (get_user name w).1
  = match next_fault w with
    | Some e => Raised e
    | None =>
      match next_fault (pop_fault w) with
      | Some e => Raised e
      | None =>
        Returned (dict <$> head (select_where "username" (VStr name) (table w)))
      end
    end.
Proof.
  destruct w as [t fs en c nc tr]. unfold get_user. unfold_M.
  unfold next_fault, pop_fault, log. cbn.
  by destruct fs as [|[e|] [|[e'|] fs]].
Qed.

Lemma get_user_healthy name w :
  healthy w →
  ∃ w', get_user name w
        = (Returned
             (dict <$> head (select_where "username" (VStr name) (table w))),
           w')
    ∧ table w' = table w ∧ healthy w'.
Proof.
  destruct w as [t fs en c nc tr]. unfold healthy, get_user. unfold_M.
  unfold next_fault, pop_fault, log. cbn. intros Hfs.
  destruct Hfs as [|? ? -> [|? ? -> Hfs]]; cbn;
    eexists; (split; [reflexivity|]); cbn; by repeat constructor.
Qed.

(** ** [add_user] and [get_user] *)

Lemma select_where_new col v user t :
  v ≠ VNone → valid_user user → user !! col = Some v →
  ¬ has_value col v t →
  select_where col v (t ++ [row_of user]) = [row_of user].
Proof.
  intros Hv Hvalid Hcol Hfresh. rewrite select_where_app.
  apply select_where_nil in Hfresh; [|done]. rewrite Hfresh. simpl.
  rewrite select_where_hit; [done..|].
  unfold row_get. by rewrite valid_user_dict.
Qed.

(** C1. A valid mapping whose account id and username the table does not
    hold yet is stored by [add_user] on a working engine, and [get_user]
    with its username then returns a mapping equal to it. *)
Theorem add_user_then_get_user w user name :
  healthy w →
  valid_user user →
  user !! "username" = Some (VStr name) →
  ¬ has_value "accountid" (dict_get user "accountid") (table w) →
  ¬ has_value "username" (VStr name) (table w) →
  ∃ w1 w2, add_user user w = (Returned (), w1)
    ∧ get_user name w1 = (Returned (Some user), w2).
Proof.
  intros Hw Hvalid Hname Hid Huser.
  assert (Hget : dict_get user "username" = VStr name).
  { unfold dict_get. by rewrite Hname. }
  destruct (add_user_healthy user w Hw) as (w1 & Hadd & Ht1 & Hw1).
  rewrite db_insert_accepts in Hadd, Ht1 by (by rewrite ?Hget).
  destruct (get_user_healthy name w1 Hw1) as (w2 & Hrun & _ & _).
  exists w1, w2. split; [done|]. rewrite Hrun, Ht1.
  rewrite (select_where_new _ _ user) by done. simpl.
  by rewrite valid_user_dict.
Qed.

Lemma alice_valid : valid_user alice.
Proof. split; [by vm_compute|]. repeat constructor. Qed.

Lemma has_value_nil col v : ¬ has_value col v [].
Proof. intros (r & Hr & _). by apply elem_of_nil in Hr. Qed.

Lemma add_user_then_get_user_witness :
  ∃ w1 w2, add_user alice empty_world = (Returned (), w1)
    ∧ get_user "alice" w1 = (Returned (Some alice), w2).
Proof.
  apply (add_user_then_get_user empty_world alice "alice").
  - constructor.
  - apply alice_valid.
  - reflexivity.
  - apply has_value_nil.
  - apply has_value_nil.
Defined.

(** C4. On a working engine [get_user] returns [None], and raises nothing,
    when no row has the username; when some row has it, the result is the
    mapping of the first such row of the table. *)
Theorem get_user_none_or_first_row w name :
  healthy w →
  (¬ has_value "username" (VStr name) (table w) →
   (get_user name w).1 = Returned None)
  ∧ (∀ before r after,
       table w = (before ++ r :: after)%list →
       ¬ has_value "username" (VStr name) before →
       row_get "username" r = Some (VStr name) →
       (get_user name w).1 = Returned (Some (dict r))).
Proof.
  intros Hw. destruct (get_user_healthy name w Hw) as (w' & -> & _ & _). simpl.
  split.
  - intros Hno. apply select_where_nil in Hno; [|done]. by rewrite Hno.
  - intros before r after -> Hno Hr.
    apply select_where_nil in Hno; [|done].
    rewrite select_where_app, Hno. simpl. by rewrite select_where_hit.
Qed.

Lemma get_user_none_or_first_row_witness :
  (get_user "bob" seeded_world).1 = Returned None
  ∧ (get_user "alice" seeded_world).1 = Returned (Some (dict (row_of alice))).
Proof.
  destruct (get_user_none_or_first_row seeded_world "bob") as [Hnone _];
    [constructor|].
  destruct (get_user_none_or_first_row seeded_world "alice") as [_ Hsome];
    [constructor|].
  split.
  - apply Hnone. intros (r & Hr & Hrow).
    apply list_elem_of_singleton in Hr as ->. by vm_compute in Hrow.
  - apply (Hsome [] (row_of alice) []); [done|apply has_value_nil|done].
Defined.

Lemma has_value_new col user t :
  valid_user user → col ∈ column_names →
  has_value col (dict_get user col) (t ++ [row_of user]).
Proof.
  intros Hvalid Hcol. exists (row_of user). split.
  - apply elem_of_app. right. by left.
  - unfold row_get. by apply dict_row_of_lookup.
Qed.

(** C6. After a first [add_user] has stored a row, an [add_user] of a valid
    mapping with the same username or the same account id raises the
    engine's duplicate-key error, leaves the table as it was, and [get_user]
    still returns the first mapping. *)
Theorem add_user_duplicate_key w u1 u2 name w1 :
  healthy w →
  add_user u1 w = (Returned (), w1) →
  u1 !! "username" = Some (VStr name) →
  valid_user u2 →
  dict_get u2 "username" = dict_get u1 "username"
  ∨ dict_get u2 "accountid" = dict_get u1 "accountid" →
  ∃ e w2 w3,
    add_user u2 w1 = (Raised e, w2)
    ∧ is_duplicate_key e = true
    ∧ table w2 = table w1
    ∧ get_user name w2 = (Returned (Some u1), w3).
Proof.
  intros Hw Hadd1 Hname Hvalid2 Hsame.
  destruct (add_user_healthy u1 w Hw) as (w1' & Hrun1 & Ht1 & Hw1).
  rewrite Hadd1 in Hrun1.
  destruct (db_insert u1 (table w)) as [e1|t1] eqn:Hins1; [done|].
  injection Hrun1 as <-.
  apply db_insert_inr in Hins1 as (Hvalid1 & _ & Hfresh & ->).
  assert (Hget : dict_get u1 "username" = VStr name).
  { unfold dict_get. by rewrite Hname. }
  destruct (db_insert_duplicate u2 (table w1) Hvalid2) as [c Hins2].
  { rewrite Ht1. destruct Hsame as [-> | ->]; [right|left];
      apply has_value_new; try done; apply (bool_decide_unpack _); done. }
  destruct (add_user_healthy u2 w1 Hw1) as (w2 & Hrun2 & Ht2 & Hw2).
  rewrite Hins2 in Hrun2, Ht2.
  destruct (get_user_healthy name w2 Hw2) as (w3 & Hrun3 & _ & _).
  exists (IntegrityError (UniqueViolation c)), w2, w3.
  split_and!; [done..|]. rewrite Hrun3, Ht2, Ht1.
  rewrite Hget in Hfresh.
  rewrite (select_where_new _ _ u1 (table w)) by done. simpl.
  by rewrite valid_user_dict.
Qed.

Lemma add_user_duplicate_key_witness :
  ∃ e w2 w3,
    add_user alice_again (add_user alice empty_world).2 = (Raised e, w2)
    ∧ is_duplicate_key e = true
    ∧ table w2 = table (add_user alice empty_world).2
    ∧ get_user "alice" w2 = (Returned (Some alice), w3).
Proof.
  apply (add_user_duplicate_key empty_world alice alice_again "alice").
  - constructor.
  - by vm_compute.
  - reflexivity.
  - split; [by vm_compute|]. repeat constructor.
  - left. reflexivity.
Defined.

(** ** The loop of [generate_accountid] *)

Section loop.

(** The connection the loop runs on. *)
Variable conn : nat.

Lemma loop_done fuel a w :
  while_accountid_is_none fuel conn (Some a) w = (Returned a, w).
Proof. by destruct fuel. Qed.

(** One round of the loop. *)
Lemma loop_round fuel w :
  while_accountid_is_none (S fuel) conn None w
  = match next_fault w with
    | Some e => (Raised e, checked conn w)
    | None =>
      match select_where "accountid" (VStr (candidate w 0)) (table w) with
      | [] => (Returned (candidate w 0), checked conn w)
      | _ :: _ => while_accountid_is_none fuel conn None (retried conn w)
      end
    end.
Proof.
  unfold retried, checked, candidate. rewrite Nat.add_0_r.
  cbn [while_accountid_is_none]. unfold_M. cbn.
  change (next_fault (log _ (log _ (log _ (advance w))))) with (next_fault w).
  destruct (next_fault w) as [e|]; [done|].
  change (table (pop_fault (log _ (log _ (log _ (advance w)))))) with (table w).
  destruct (select_where _ _ (table w)) as [|r rows]; cbn; [|done].
  apply loop_done.
Qed.

Lemma retries_fields k w :
  table (retries k conn w) = table w
  ∧ entropy (retries k conn w) = entropy w
  ∧ cursor (retries k conn w) = (cursor w + k)%nat
  ∧ faults (retries k conn w) = drop k (faults w)
  ∧ next_conn (retries k conn w) = next_conn w.
Proof.
  revert w. induction k as [|k IH]; intros w; simpl.
  - by rewrite Nat.add_0_r.
  - destruct (IH (retried conn w)) as (-> & -> & -> & -> & ->). simpl.
    split_and!; try done; try lia.
    destruct (faults w); simpl; [by rewrite drop_nil|done].
Qed.

Lemma candidate_retried w i :
  candidate (retried conn w) i = candidate w (S i).
Proof.
  unfold candidate. change (entropy (retried conn w)) with (entropy w).
  change (cursor (retried conn w)) with (S (cursor w)).
  by rewrite Nat.add_succ_comm.
Qed.

Lemma fault_at_retried w i :
  fault_at (retried conn w) i = fault_at w (S i).
Proof. unfold fault_at. simpl. by destruct (faults w). Qed.

Lemma next_fault_fault_at w : next_fault w = fault_at w 0.
Proof. unfold next_fault, fault_at. by destruct (faults w). Qed.

Lemma retries_trace k w :
  ∃ evs, trace (retries k conn w) = (trace w ++ evs)%list
       ∧ Forall (loop_event conn) evs.
Proof.
  revert w. induction k as [|k IH]; intros w; simpl.
  - exists []. by rewrite app_nil_r.
  - destruct (IH (retried conn w)) as (evs & -> & Hevs). simpl.
    eexists. rewrite <-!app_assoc. split; [done|]. simpl.
    by repeat constructor.
Qed.

(** How a run of the loop ends: after [k] rounds that each found their
    candidate in the table, with the first candidate the table does not
    hold, with the error the engine raised on an existence check, or cut
    off. *)
Lemma loop_runs fuel w r w' :
  while_accountid_is_none fuel conn None w = (r, w') →
  ∃ k,
    (∀ i, (i < k)%nat →
          has_accountid (candidate w i) (table w) ∧ fault_at w i = None)
    ∧ match r with
      | Returned a =>
          (k < fuel)%nat ∧ a = candidate w k
          ∧ ¬ has_accountid a (table w) ∧ fault_at w k = None
          ∧ w' = checked conn (retries k conn w)
      | Raised e =>
          (k < fuel)%nat ∧ fault_at w k = Some e
          ∧ w' = checked conn (retries k conn w)
      | OutOfFuel => k = fuel ∧ w' = retries k conn w
      end.
Proof.
  revert w. induction fuel as [|fuel IH]; intros w.
  { intros [= <- <-]. exists 0%nat. split; [lia|done]. }
  rewrite loop_round, next_fault_fault_at.
  destruct (fault_at w 0) as [e|] eqn:Hfault.
  { intros [= <- <-]. exists 0%nat. split; [lia|]. split_and!; [lia|done..]. }
  destruct (select_where _ _ (table w)) as [|r0 rows] eqn:Hsel.
  { intros [= <- <-]. exists 0%nat. split; [lia|].
    split_and!; try done; try lia. by apply select_where_nil. }
  intros Hrun. apply IH in Hrun as (k & Hhits & Hend).
  exists (S k). split.
  - intros [|i] Hi.
    + split; [|done]. exists r0. apply (select_where_elem _ _ _ (table w)); [done|].
      rewrite Hsel. by left.
    + destruct (Hhits i ltac:(lia)) as [Hhit Hok].
      by rewrite candidate_retried, fault_at_retried in *.
  - destruct r as [a|e|]; simpl;
      rewrite ?candidate_retried, ?fault_at_retried in Hend;
      destruct_and?; split_and?; try done; lia.
Qed.

End loop.

(** ** [generate_accountid] *)

Lemma generate_accountid_run fuel w :
  generate_accountid fuel w
  = match next_fault w with
    | Some e => (Raised e, refused e w)
    | None =>
      let conn := next_conn w in
      match while_accountid_is_none fuel conn None (connected w) with
      | (Returned a, w') => (Returned a, returned conn a w')
      | (Raised e, w') => (Raised e, failed conn e w')
      | (OutOfFuel, w') => (OutOfFuel, w')
      end
    end.
Proof.
  unfold generate_accountid, refused, connected, returned, failed. unfold_M.
  cbn -[while_accountid_is_none].
  change (next_fault (log _ w)) with (next_fault w).
  destruct (next_fault w) as [e|]; [done|].
  cbn -[while_accountid_is_none].
  by destruct (while_accountid_is_none _ _ _ _) as [[a|e|] w'].
Qed.

Lemma candidate_connected w i : candidate (connected w) i = candidate w i.
Proof. done. Qed.

Lemma fault_at_connected w i : fault_at (connected w) i = fault_at w (S i).
Proof. unfold fault_at. simpl. by destruct (faults w). Qed.

(** How a call of [generate_accountid] ends.  The engine's requests are
    numbered from the call on: request 0 is [engine.connect()], request
    [S i] the existence check of candidate [i]. *)
Lemma generate_accountid_runs fuel w r w' :
  generate_accountid fuel w = (r, w') →
  match fault_at w 0 with
  | Some e => r = Raised e ∧ w' = refused e w
  | None =>
    ∃ k,
      let conn := next_conn w in
      let wk := retries k conn (connected w) in
      (∀ i, (i < k)%nat →
            has_accountid (candidate w i) (table w)
            ∧ fault_at w (S i) = None)
      ∧ match r with
        | Returned a =>
            (k < fuel)%nat ∧ a = candidate w k
            ∧ ¬ has_accountid a (table w) ∧ fault_at w (S k) = None
            ∧ w' = returned conn a (checked conn wk)
        | Raised e =>
            (k < fuel)%nat ∧ fault_at w (S k) = Some e
            ∧ w' = failed conn e (checked conn wk)
        | OutOfFuel => k = fuel ∧ w' = wk
        end
  end.
Proof.
  rewrite generate_accountid_run, next_fault_fault_at.
  destruct (fault_at w 0) as [e|]; [by intros [= <- <-]|]. cbn zeta.
  destruct (while_accountid_is_none _ _ _ _) as [r0 w0] eqn:Hloop.
  apply loop_runs in Hloop as (k & Hhits & Hend).
  setoid_rewrite candidate_connected in Hhits.
  setoid_rewrite fault_at_connected in Hhits.
  rewrite candidate_connected, fault_at_connected in Hend.
  change (table (connected w)) with (table w) in *.
  intros Hrun. exists k. split; [done|].
  destruct r0 as [a|e|]; injection Hrun as <- <-; destruct_and?;
    split_and?; by subst.
Qed.

Lemma candidate_retries k conn w i :
  candidate (retries k conn w) i = candidate w (k + i).
Proof.
  revert w. induction k as [|k IH]; intros w; simpl; [done|].
  by rewrite IH, candidate_retried.
Qed.

(** The trace of a call: the connection is checked out, the rounds of the
    loop follow, and the closing events come last. *)
Lemma generate_accountid_trace fuel w r w' :
  generate_accountid fuel w = (r, w') →
  match fault_at w 0 with
  | Some e =>
      trace w'
      = (trace w ++ [LogDebug "Generating an account ID"; RecordException e])%list
  | None =>
      let conn := next_conn w in
      ∃ evs,
        Forall (loop_event conn) evs
        ∧ trace w'
          = (trace w
             ++ [LogDebug "Generating an account ID"; EvCheckout conn]
             ++ evs ++ closing_events conn r)%list
        ∧ ∀ a, r = Returned a →
               EvExecute conn (Select "accountid" (VStr a)) ∈ evs
  end.
Proof.
  intros Hrun. apply generate_accountid_runs in Hrun.
  destruct (fault_at w 0) as [e|].
  { destruct Hrun as [-> ->]. simpl. by rewrite <-app_assoc. }
  destruct Hrun as (k & _ & Hend). cbn zeta in *.
  destruct (retries_trace (next_conn w) k (connected w)) as (evs & Hevs & Hall).
  destruct r as [a|e|].
  - destruct Hend as (_ & Ha & _ & _ & ->).
    exists (evs ++ [SetAttribute "generated_accountid" (AStr a);
                    LogQuery (Select "accountid" (VStr a));
                    EvExecute (next_conn w) (Select "accountid" (VStr a))])%list.
    split_and!.
    + apply Forall_app. split; [done|]. by repeat constructor.
    + simpl. rewrite candidate_retries, candidate_connected, Nat.add_0_r, <-Ha.
      rewrite Hevs. simpl. by rewrite <-!app_assoc.
    + intros ? [= <-]. apply elem_of_app. right. by repeat constructor.
  - destruct Hend as (_ & _ & ->).
    set (a := candidate (retries k (next_conn w) (connected w)) 0).
    exists (evs ++ [SetAttribute "generated_accountid" (AStr a);
                    LogQuery (Select "accountid" (VStr a));
                    EvExecute (next_conn w) (Select "accountid" (VStr a))])%list.
    split_and!; [| |done].
    + apply Forall_app. split; [done|]. by repeat constructor.
    + simpl. fold a. rewrite Hevs. simpl. by rewrite <-!app_assoc.
  - destruct Hend as [_ ->]. exists evs. split_and!; [done| |done].
    rewrite Hevs. simpl. by rewrite app_nil_r, <-!app_assoc.
Qed.

Lemma tail_drop {A} k (l : list A) : tail (drop k l) = drop (S k) l.
Proof.
  revert l. induction k as [|k IH]; intros [|x l]; by simpl.
Qed.

(** The world when the loop has ended at the check of candidate [k]. *)
Lemma checked_retries_fields k w :
  let w' := checked (next_conn w) (retries k (next_conn w) (connected w)) in
  table w' = table w
  ∧ cursor w' = (cursor w + S k)%nat
  ∧ faults w' = drop (S (S k)) (faults w).
Proof.
  destruct (retries_fields (next_conn w) k (connected w))
    as (Ht & _ & Hc & Hf & _).
  cbn zeta. unfold checked. simpl. rewrite Ht, Hc, Hf. simpl.
  split_and!; [done|lia|]. rewrite tail_drop. by destruct (faults w).
Qed.

Lemma healthy_fault_at w i : healthy w → fault_at w i = None.
Proof.
  unfold healthy, fault_at. intros Hw.
  destruct (faults w !! i) as [f|] eqn:Hf; [|done].
  rewrite Forall_forall in Hw. rewrite (Hw f); [done|].
  by eapply list_elem_of_lookup_2.
Qed.

Lemma candidate_range w i :
  ∃ n, candidate w i = str n ∧ (1000000000 ≤ n ≤ 9999999999)%Z.
Proof.
  unfold candidate. eexists. split; [done|].
  pose proof (Z.mod_pos_bound (entropy w (cursor w + i)) 9000000000). lia.
Qed.

(** C2. Whatever [generate_accountid] returns is a string of exactly ten
    ASCII digits that writes a number of 1000000000..9999999999. *)
Theorem generate_accountid_ten_digits fuel w a w' :
  generate_accountid fuel w = (Returned a, w') →
  String.length a = 10%nat
  ∧ all_digits a = true
  ∧ ∃ n, numeric_value a = Some n ∧ (1000000000 ≤ n ≤ 9999999999)%Z.
Proof.
  intros Hrun. apply generate_accountid_runs in Hrun.
  destruct (fault_at w 0); [by destruct Hrun|].
  destruct Hrun as (k & _ & _ & -> & _).
  destruct (candidate_range w k) as (n & -> & Hn).
  destruct (str_ten_digits n Hn) as (Hlen & Hdigits & Hvalue).
  split_and!; [done..|]. by exists n.
Qed.

Lemma generate_accountid_ten_digits_witness :
  (generate_accountid 2 seeded_world).1 = Returned "1000000005"
  ∧ String.length "1000000005" = 10%nat
  ∧ all_digits "1000000005" = true
  ∧ ∃ n, numeric_value "1000000005" = Some n
         ∧ (1000000000 ≤ n ≤ 9999999999)%Z.
Proof.
  split; [by vm_compute|].
  apply (generate_accountid_ten_digits 2 seeded_world "1000000005"
           (generate_accountid 2 seeded_world).2).
  by vm_compute.
Defined.

(** The call returns the first candidate the table does not hold, when the
    engine raises nothing up to that candidate's check. *)
Lemma generate_accountid_returns fuel w k :
  (∀ i, (i ≤ S k)%nat → fault_at w i = None) →
  (∀ i, (i < k)%nat → has_accountid (candidate w i) (table w)) →
  ¬ has_accountid (candidate w k) (table w) →
  (k < fuel)%nat →
  ∃ w', generate_accountid fuel w = (Returned (candidate w k), w')
    ∧ cursor w' = (cursor w + S k)%nat
    ∧ table w' = table w.
Proof.
  intros Hok Hhits Hfree Hfuel.
  destruct (generate_accountid fuel w) as [r w'] eqn:Hrun.
  pose proof (generate_accountid_runs _ _ _ _ Hrun) as Hend.
  rewrite (Hok 0%nat) in Hend by lia.
  destruct Hend as (k' & Hhits' & Hend). cbn zeta in *.
  assert (Hk : ¬ (k < k')%nat).
  { intros Hlt. by destruct (Hhits' k Hlt). }
  destruct r as [a|e|].
  - destruct Hend as (_ & -> & Hfree' & _ & ->).
    assert (k' = k) as ->.
    { destruct (decide (k' < k)%nat) as [Hlt|]; [|lia].
      by destruct Hfree'; apply Hhits. }
    destruct (checked_retries_fields k w) as (Ht & Hc & _).
    by eexists.
  - destruct Hend as (_ & Hfault & _).
    rewrite Hok in Hfault by lia. done.
  - destruct Hend as [-> _]. lia.
Qed.

(** The call raises the engine's first error at once: request [0] is
    [engine.connect()], request [S i] the check of candidate [i]. *)
Lemma generate_accountid_raises fuel w k e :
  fault_at w k = Some e →
  (∀ i, (i < k)%nat → fault_at w i = None) →
  (∀ i, (S i < k)%nat → has_accountid (candidate w i) (table w)) →
  (k ≤ fuel)%nat →
  ∃ w', generate_accountid fuel w = (Raised e, w')
    ∧ cursor w' = (cursor w + k)%nat
    ∧ faults w' = drop (S k) (faults w)
    ∧ table w' = table w.
Proof.
  intros Hfault Hok Hhits Hfuel.
  destruct (generate_accountid fuel w) as [r w'] eqn:Hrun.
  pose proof (generate_accountid_runs _ _ _ _ Hrun) as Hend.
  destruct k as [|k].
  { rewrite Hfault in Hend. destruct Hend as [-> ->].
    eexists. split; [done|]. simpl. split_and!; [lia| |done].
    by destruct (faults w). }
  rewrite (Hok 0%nat) in Hend by lia.
  destruct Hend as (k' & Hhits' & Hend). cbn zeta in *.
  assert (Hk : ¬ (k < k')%nat).
  { intros Hlt. destruct (Hhits' k Hlt) as [_ Hnone]. congruence. }
  destruct r as [a|e'|].
  - destruct Hend as (_ & -> & Hfree' & Hnone & ->).
    destruct (decide (k' < k)%nat) as [Hlt|].
    + destruct Hfree'. apply Hhits. lia.
    + assert (k' = k) as -> by lia. congruence.
  - destruct Hend as (_ & Hfault' & ->).
    destruct (decide (k' < k)%nat) as [Hlt|].
    + rewrite Hok in Hfault' by lia. done.
    + assert (k' = k) as -> by lia.
      assert (e' = e) as -> by congruence.
      destruct (checked_retries_fields k w) as (Ht & Hc & Hf).
      by eexists.
  - destruct Hend as [-> _]. lia.
Qed.

(** The loop goes on for as long as the candidates are in the table. *)
Lemma generate_accountid_goes_on fuel w :
  (∀ i, (i ≤ fuel)%nat → fault_at w i = None) →
  (∀ i, (i < fuel)%nat → has_accountid (candidate w i) (table w)) →
  ∃ w', generate_accountid fuel w = (OutOfFuel, w')
    ∧ cursor w' = (cursor w + fuel)%nat.
Proof.
  intros Hok Hhits.
  destruct (generate_accountid fuel w) as [r w'] eqn:Hrun.
  pose proof (generate_accountid_runs _ _ _ _ Hrun) as Hend.
  rewrite (Hok 0%nat) in Hend by lia.
  destruct Hend as (k' & Hhits' & Hend). cbn zeta in *.
  destruct r as [a|e|].
  - destruct Hend as (Hlt & -> & Hfree' & _). by destruct Hfree'; apply Hhits.
  - destruct Hend as (Hlt & Hfault & _). rewrite Hok in Hfault by lia. done.
  - destruct Hend as [-> ->]. eexists. split; [done|].
    by destruct (retries_fields (next_conn w) fuel (connected w))
      as (_ & _ & -> & _).
Qed.

Lemma alice_row_has_accountid t :
  has_accountid "1234567890" (row_of alice :: t).
Proof. exists (row_of alice). split; [by left|by vm_compute]. Qed.

Lemma alice_row_only a : a ≠ "1234567890" → ¬ has_accountid a [row_of alice].
Proof.
  intros Ha (r & Hr & Hrow). apply list_elem_of_singleton in Hr as ->.
  vm_compute in Hrow. congruence.
Qed.

(** C3. An account id [generate_accountid] returns is not in the table,
    which the call leaves as it was, and the call has executed the
    existence check of that very id on its connection.  So, on a working
    engine, with [x] in the table and a random source that yields [x] and
    then [y], which is not in the table, the call returns [y]. *)
Theorem generate_accountid_checked_absent fuel w :
  (∀ a w',
     generate_accountid fuel w = (Returned a, w') →
     ¬ has_accountid a (table w)
     ∧ table w' = table w
     ∧ ∃ evs, trace w' = (trace w ++ evs)%list
              ∧ EvExecute (next_conn w) (Select "accountid" (VStr a)) ∈ evs)
  ∧ (∀ x y,
       healthy w →
       candidate w 0 = x → candidate w 1 = y →
       has_accountid x (table w) → ¬ has_accountid y (table w) →
       (2 ≤ fuel)%nat →
       ∃ w', generate_accountid fuel w = (Returned y, w') ∧ y ≠ x).
Proof.
  split.
  - intros a w' Hrun.
    pose proof (generate_accountid_trace _ _ _ _ Hrun) as Htrace.
    apply generate_accountid_runs in Hrun.
    destruct (fault_at w 0); [by destruct Hrun|].
    destruct Hrun as (k & _ & _ & -> & Hfree & _ & ->).
    destruct Htrace as (evs & _ & Htrace & Hlast). cbn zeta in *.
    destruct (checked_retries_fields k w) as (Ht & _ & _).
    split_and!; [done..|]. eexists. split; [exact Htrace|].
    rewrite !elem_of_app. right. left. by apply Hlast.
  - intros x y Hw <- <- Hx Hy Hfuel.
    destruct (generate_accountid_returns fuel w 1) as (w' & Hrun & _); try done.
    + intros. by apply healthy_fault_at.
    + intros i Hi. by replace i with 0%nat by lia.
    + exists w'. split; [done|]. by intros Heq; rewrite Heq in Hy.
Qed.

Lemma generate_accountid_checked_absent_witness :
  ∃ w', generate_accountid 2 seeded_world = (Returned "1000000005", w')
        ∧ "1000000005" ≠ "1234567890".
Proof.
  destruct (generate_accountid_checked_absent 2 seeded_world) as [_ Hsecond].
  apply Hsecond.
  - constructor.
  - by vm_compute.
  - by vm_compute.
  - apply alice_row_has_accountid.
  - by apply alice_row_only.
  - lia.
Defined.

(** C7. The loop has no bound on its rounds.  On a working engine the call
    returns the first candidate of the random source that the table does
    not hold, however many candidates come before it; and when the table
    holds every candidate, no number of rounds ends the call: each round
    allowed is run and the loop is still going. *)
Theorem generate_accountid_unbounded w :
  healthy w →
  (∀ k fuel,
     (∀ i, (i < k)%nat → has_accountid (candidate w i) (table w)) →
     ¬ has_accountid (candidate w k) (table w) →
     (k < fuel)%nat →
     ∃ w', generate_accountid fuel w = (Returned (candidate w k), w')
           ∧ cursor w' = (cursor w + S k)%nat)
  ∧ ((∀ i, has_accountid (candidate w i) (table w)) →
     ∀ fuel, ∃ w', generate_accountid fuel w = (OutOfFuel, w')
                   ∧ cursor w' = (cursor w + fuel)%nat).
Proof.
  intros Hw. split.
  - intros k fuel Hhits Hfree Hfuel.
    destruct (generate_accountid_returns fuel w k) as (w' & Hrun & Hc & _);
      try done; [|by exists w'].
    intros. by apply healthy_fault_at.
  - intros Hhits fuel. apply generate_accountid_goes_on; [|by intros].
    intros. by apply healthy_fault_at.
Qed.

Lemma generate_accountid_unbounded_witness :
  (∃ w', generate_accountid 2 seeded_world
         = (Returned (candidate seeded_world 1), w')
         ∧ cursor w' = 2%nat)
  ∧ ∃ w', generate_accountid 1000 stuck_world = (OutOfFuel, w')
          ∧ cursor w' = 1000%nat.
Proof.
  split.
  - destruct (generate_accountid_unbounded seeded_world) as [Hfirst _];
      [constructor|].
    apply (Hfirst 1%nat 2%nat); [|by apply alice_row_only|lia].
    intros i Hi. replace i with 0%nat by lia. apply alice_row_has_accountid.
  - destruct (generate_accountid_unbounded stuck_world) as [_ Hloop];
      [constructor|].
    apply Hloop. intros i. apply alice_row_has_accountid.
Defined.

Lemma next_fault_pop_fault w : next_fault (pop_fault w) = fault_at w 1.
Proof. unfold next_fault, fault_at. simpl. by destruct (faults w) as [|? []]. Qed.

(** C5. [generate_accountid] goes round again only after a check that found
    its candidate in the table, and an error the engine raises ends the call
    with that error: no candidate is drawn and nothing is asked of the
    engine after it.  [add_user] and [get_user] raise exactly what the
    engine raises, at [connect] or at [execute]; [add_user] reaches the
    engine only with a statement that compiles, and raises the compiler's
    error, as it is, otherwise.  (Request 0 of a call is
    [engine.connect()]; request [S i] of [generate_accountid] is the check
    of candidate [i].) *)
Theorem engine_errors_propagate w :
  (∀ fuel r w',
     generate_accountid fuel w = (r, w') →
     let drawn := (cursor w' - cursor w)%nat in
     (∀ i, (S i < drawn)%nat →
           has_accountid (candidate w i) (table w)
           ∧ fault_at w (S i) = None)
     ∧ ∀ e, r = Raised e →
            fault_at w drawn = Some e
            ∧ faults w' = drop (S drawn) (faults w))
  ∧ (∀ fuel k e,
       fault_at w k = Some e →
       (∀ i, (i < k)%nat → fault_at w i = None) →
       (∀ i, (S i < k)%nat → has_accountid (candidate w i) (table w)) →
       (k ≤ fuel)%nat →
       ∃ w', generate_accountid fuel w = (Raised e, w')
             ∧ cursor w' = (cursor w + k)%nat
             ∧ faults w' = drop (S k) (faults w))
  ∧ (∀ user,
       (add_user user w).1
       = match unconsumed user with
         | (_ :: _) as names => Raised (CompileError names)
         | [] =>
           match fault_at w 0, fault_at w 1 with
           | Some e, _ | None, Some e => Raised e
           | None, None =>
             match db_insert user (table w) with
             | inl e => Raised e
             | inr _ => Returned ()
             end
           end
         end)
  ∧ (∀ name,
       (get_user name w).1
       = match fault_at w 0, fault_at w 1 with
         | Some e, _ | None, Some e => Raised e
         | None, None =>
           Returned
             (dict <$> head (select_where "username" (VStr name) (table w)))
         end).
Proof.
  split_and!.
  - intros fuel r w' Hrun. apply generate_accountid_runs in Hrun.
    destruct (fault_at w 0) as [e0|] eqn:Hconnect.
    { destruct Hrun as [-> ->]. simpl. rewrite Nat.sub_diag.
      split; [lia|]. intros e [= <-]. split; [done|]. by destruct (faults w). }
    destruct Hrun as (k & Hhits & Hend). cbn zeta in *.
    destruct (checked_retries_fields k w) as (_ & Hc & Hf).
    destruct r as [a|e|].
    + destruct Hend as (_ & _ & _ & _ & ->). simpl in *. rewrite Hc.
      replace (cursor w + S k - cursor w)%nat with (S k) by lia.
      split; [|done]. intros i Hi. apply Hhits. lia.
    + destruct Hend as (_ & Hfault & ->). simpl in *. rewrite Hc, Hf.
      replace (cursor w + S k - cursor w)%nat with (S k) by lia.
      split; [|by intros ? [= <-]]. intros i Hi. apply Hhits. lia.
    + destruct Hend as [_ ->].
      destruct (retries_fields (next_conn w) k (connected w))
        as (_ & _ & -> & _).
      simpl. replace (cursor w + k - cursor w)%nat with k by lia.
      split; [|done]. intros i Hi. apply Hhits. lia.
  - intros fuel k e Hfault Hok Hhits Hfuel.
    destruct (generate_accountid_raises fuel w k e) as (w' & ? & ? & ? & _);
      try done.
    by exists w'.
  - intros user.
    rewrite add_user_outcome, next_fault_fault_at, next_fault_pop_fault.
    by destruct (unconsumed user).
  - intros name.
    by rewrite get_user_outcome, next_fault_fault_at, next_fault_pop_fault.
Qed.

Lemma engine_errors_propagate_witness :
  ∃ w', generate_accountid 5 failing_world
        = (Raised (OperationalError "connection lost"), w')
        ∧ cursor w' = 2%nat
        ∧ faults w' = [].
Proof.
  destruct (engine_errors_propagate failing_world) as (_ & Hraise & _).
  apply (Hraise 5%nat 2%nat (OperationalError "connection lost")).
  - reflexivity.
  - intros i Hi. assert (i = 0 ∨ i = 1)%nat as [-> | ->] by lia; reflexivity.
  - intros i Hi. replace i with 0%nat by lia. apply alice_row_has_accountid.
  - lia.
Defined.

Lemma loop_event_on_connection conn ev :
  loop_event conn ev → on_connection conn ev.
Proof.
  destruct ev as [| | | | | |c [|col []]|]; simpl; try done. by intros [].
Qed.

(** C8. All that a call of [generate_accountid] asks of the engine happens
    on one connection: it is checked out once, before the first round of
    the loop, every existence check of every round is executed on it, and
    it is given back only when the loop is over. *)
Theorem generate_accountid_one_connection fuel w r w' :
  generate_accountid fuel w = (r, w') →
  (∃ evs, trace w' = (trace w ++ evs)%list ∧ Forall off_engine evs)
  ∨ ∃ before during after,
      let conn := next_conn w in
      trace w' = (trace w ++ before ++ [EvCheckout conn] ++ during ++ after)%list
      ∧ Forall off_engine before
      ∧ Forall (on_connection conn) during
      ∧ (∀ a, r = Returned a →
              EvExecute conn (Select "accountid" (VStr a)) ∈ during)
      ∧ (r = OutOfFuel ∧ after = []
         ∨ ∃ rest, after = EvRelease conn :: rest ∧ Forall off_engine rest).
Proof.
  intros Hrun. apply generate_accountid_trace in Hrun.
  destruct (fault_at w 0) as [e|].
  { left. eexists. split; [exact Hrun|]. by repeat constructor. }
  right. destruct Hrun as (evs & Hevs & Htrace & Hlast).
  exists [LogDebug "Generating an account ID"], evs,
    (closing_events (next_conn w) r).
  cbn zeta. split_and!; [done|by repeat constructor| |done|].
  - eapply Forall_impl; [exact Hevs|]. apply loop_event_on_connection.
  - destruct r as [a|e|]; [right|right|left; done];
      eexists; (split; [done|]); by repeat constructor.
Qed.

Lemma generate_accountid_one_connection_witness :
  (∃ evs, trace (generate_accountid 2 seeded_world).2
          = (trace seeded_world ++ evs)%list ∧ Forall off_engine evs)
  ∨ ∃ before during after,
      let conn := next_conn seeded_world in
      trace (generate_accountid 2 seeded_world).2
      = (trace seeded_world ++ before ++ [EvCheckout conn] ++ during ++ after)%list
      ∧ Forall off_engine before
      ∧ Forall (on_connection conn) during
      ∧ (∀ a, (generate_accountid 2 seeded_world).1 = Returned a →
              EvExecute conn (Select "accountid" (VStr a)) ∈ during)
      ∧ ((generate_accountid 2 seeded_world).1 = OutOfFuel ∧ after = []
         ∨ ∃ rest, after = EvRelease conn :: rest ∧ Forall off_engine rest).
Proof.
  apply (generate_accountid_one_connection 2 seeded_world).
  apply surjective_pairing.
Defined.

(** Every retry event of a call carries [None] for the account id. *)
Lemma generate_accountid_retry_events fuel w r w' name a :
  generate_accountid fuel w = (r, w') →
  AddEvent name a ∈ trace w' → AddEvent name a ∈ trace w ∨ a = None.
Proof.
  intros Hrun Hin. apply generate_accountid_trace in Hrun.
  destruct (fault_at w 0) as [e|].
  { rewrite Hrun in Hin. apply elem_of_app in Hin as [Hin|Hin]; [by left|].
    rewrite !elem_of_cons, elem_of_nil in Hin. by destruct_or!. }
  destruct Hrun as (evs & Hevs & Htrace & _). cbn zeta in *.
  rewrite Htrace, !elem_of_app in Hin.
  destruct Hin as [Hin|[Hin|[Hin|Hin]]]; [by left| | |].
  - rewrite !elem_of_cons, elem_of_nil in Hin. by destruct_or!.
  - rewrite Forall_forall in Hevs. right. by apply (Hevs _ Hin).
  - destruct r; simpl in Hin; rewrite ?elem_of_cons, elem_of_nil in Hin;
      by destruct_or?.
Qed.

(** C9. With [alice]'s account id in the table and a random source that
    yields it first, the call rejects it and leaves a retry event on its
    span.  The event's account id is [None]: the variable has been reset
    by the time the event is made. *)
Theorem generate_accountid_retry_event_cleared :
  (generate_accountid 2 seeded_world).1 = Returned "1000000005"
  ∧ trace (generate_accountid 2 seeded_world).2
    = [LogDebug "Generating an account ID";
       EvCheckout 0;
       SetAttribute "generated_accountid" (AStr "1234567890");
       LogQuery (Select "accountid" (VStr "1234567890"));
       EvExecute 0 (Select "accountid" (VStr "1234567890"));
       LogDebug "RESULT: account ID already exists. Trying again";
       AddEvent "Account ID exists, retrying" None;
       SetAttribute "generated_accountid" (AStr "1000000005");
       LogQuery (Select "accountid" (VStr "1000000005"));
       EvExecute 0 (Select "accountid" (VStr "1000000005"));
       EvRelease 0;
       LogDebug "RESULT: account ID generated.";
       SetAttribute "generated.accountid" (AStr "1000000005")].
Proof. split; by vm_compute. Qed.

Ltac solve_events :=
  repeat match goal with
  | |- _ ∈ _ :: _ => first [by left | right]
  | H : _ ∈ _ :: _ |- _ => apply elem_of_cons in H as [H|H]; [by simplify_eq|]
  | H : _ ∈ [] |- _ => by apply elem_of_nil in H
  end.

(** A mapping with a key that is no column does not reach the engine:
    the statement does not compile when it is rendered for the log, so the
    call raises before it asks for a connection. *)
Lemma add_user_unknown_key_not_forwarded :
  (add_user alice_nickname empty_world).1 = Raised (CompileError ["nickname"])
  ∧ requests (trace (add_user alice_nickname empty_world).2) = []
  ∧ ¬ refused_by_engine alice_nickname empty_world.
Proof.
  split_and!; [by vm_compute..|].
  intros Hall.
  assert (Hraised : (add_user alice_nickname empty_world).1
                    = Raised (CompileError ["nickname"])) by by vm_compute.
  destruct (Hall _ Hraised) as [Hfault|(evs & Htrace & Hin)]; [done|].
  assert (Hevs : trace (add_user alice_nickname empty_world).2
                 = [SetAttribute "db.system" (AStr "sqlalchemy");
                    SetAttribute "db.statement" (AStr "INSERT INTO users");
                    SetAttribute "user.username" (AValue (VStr "alice"))])
    by by vm_compute.
  rewrite Hevs in Htrace. simpl in Htrace. subst evs.
  rewrite !elem_of_cons, elem_of_nil in Hin.
  destruct Hin as [Hin|[Hin|[Hin|[]]]]; discriminate Hin.
Qed.


(** The table has no rule on the form of an account id: [add_user] stores
    [carol], whose account id is ["abc"]. *)
Lemma add_user_accepts_any_accountid :
  ∃ w1 w2, add_user carol empty_world = (Returned (), w1)
           ∧ get_user "carol" w1 = (Returned (Some carol), w2).
Proof.
  exists (add_user carol empty_world).2,
    (get_user "carol" (add_user carol empty_world).2).2.
  split; by vm_compute.
Qed.

(** * Further properties *)

(** ** What the methods do to the table *)

Lemma add_user_returned user w w' :
  add_user user w = (Returned (), w') →
  valid_user user
  ∧ ¬ has_value "accountid" (dict_get user "accountid") (table w)
  ∧ ¬ has_value "username" (dict_get user "username") (table w)
  ∧ db_insert user (table w) = inr (table w ++ [row_of user])%list.
Proof.
  intros Hrun. pose proof (add_user_outcome user w) as Hout.
  rewrite Hrun in Hout. cbn [fst] in Hout.
  destruct (unconsumed user); [|done].
  destruct (next_fault w); [done|].
  destruct (next_fault (pop_fault w)); [done|].
  destruct (db_insert user (table w)) as [e|t'] eqn:Hins; [done|].
  by apply db_insert_inr in Hins as (? & ? & ? & ->).
Qed.

Lemma add_user_table user w :
  table (add_user user w).2
  = match (add_user user w).1 with
    | Returned _ => (table w ++ [row_of user])%list
    | _ => table w
    end.
Proof.
  destruct w as [t fs en c nc tr]. unfold add_user. unfold_M.
  unfold next_fault, pop_fault, log.
  destruct (unconsumed user) as [|k ks]; cbn; [|done].
  destruct fs as [|[e|] [|[e'|] fs]]; cbn; try done;
    destruct (db_insert user t) as [e0|t'] eqn:Hins; cbn; try done;
    by apply db_insert_inr in Hins as (_ & _ & _ & ->).
Qed.

(** X4. [add_user] stores all or nothing: when it returns, the table has
    grown by the row of the mapping, put last; in every other case the
    table is as it was. *)
Theorem add_user_all_or_nothing user w :
  table (add_user user w).2
  = match (add_user user w).1 with
    | Returned _ => (table w ++ [row_of user])%list
    | _ => table w
    end.
Proof. apply add_user_table. Qed.

Lemma generate_accountid_table fuel w :
  table (generate_accountid fuel w).2 = table w.
Proof.
  destruct (generate_accountid fuel w) as [r w'] eqn:Hrun.
  apply generate_accountid_runs in Hrun. simpl.
  destruct (fault_at w 0); [by destruct Hrun as [_ ->]|].
  destruct Hrun as (k & _ & Hend). cbn zeta in *.
  destruct (checked_retries_fields k w) as (Ht & _ & _).
  destruct (retries_fields (next_conn w) k (connected w)) as (Ht' & _).
  destruct r as [a|e|]; destruct_and?; by subst.
Qed.

Lemma get_user_table name w : table (get_user name w).2 = table w.
Proof.
  destruct w as [t fs en c nc tr]. unfold get_user. unfold_M.
  unfold next_fault, pop_fault, log. cbn.
  by destruct fs as [|[e|] [|[e'|] fs]].
Qed.

(** X3. [generate_accountid] and [get_user] only read: whatever the engine
    does and however the call ends, the table is as it was. *)
Theorem lookups_leave_table fuel name w :
  table (generate_accountid fuel w).2 = table w
  ∧ table (get_user name w).2 = table w.
Proof. split; [apply generate_accountid_table|apply get_user_table]. Qed.

(** ** The table's invariant *)

Lemma row_get_row_of col user :
  col ∈ column_names → row_get col (row_of user) = Some (dict_get user col).
Proof. apply dict_row_of_lookup. Qed.

Lemma NoDup_column_snoc col user t :
  col ∈ column_names →
  ¬ has_value col (dict_get user col) t →
  NoDup (row_get col <$> t) →
  NoDup (row_get col <$> (t ++ [row_of user])%list).
Proof.
  intros Hcol Hfresh Hnodup. rewrite fmap_app. apply NoDup_app.
  split_and!; [done| |apply NoDup_singleton].
  intros v Hv Hnew. apply list_elem_of_singleton in Hnew as ->.
  apply list_elem_of_fmap in Hv as (r & Hr & Hin).
  apply Hfresh. exists r. split; [done|]. by rewrite <-Hr, row_get_row_of.
Qed.

Lemma table_ok_insert user t t' :
  table_ok t → db_insert user t = inr t' → table_ok t'.
Proof.
  intros (Hrows & Hids & Hnames) Hins.
  apply db_insert_inr in Hins as (Hvalid & Hid & Hname & ->).
  split_and!.
  - apply Forall_app. split; [done|]. apply Forall_singleton. by exists user.
  - by apply NoDup_column_snoc; [apply (bool_decide_unpack _)|..].
  - by apply NoDup_column_snoc; [apply (bool_decide_unpack _)|..].
Qed.

Lemma after_table_ok c w : table_ok (table w) → table_ok (table (after c w)).
Proof.
  intros Hok. destruct c as [user|fuel|name]; simpl.
  - rewrite add_user_table.
    destruct (add_user user w) as [[[]|e|] w'] eqn:Hrun; simpl; [|done..].
    apply add_user_returned in Hrun as (_ & _ & _ & Hins).
    by eapply table_ok_insert.
  - by rewrite generate_accountid_table.
  - by rewrite get_user_table.
Qed.

(** X1. Whatever calls of [add_user], [generate_accountid] and [get_user]
    are made on a table that was empty, whatever the engine raises on the
    way: every row of the table is the row of a valid mapping, no two rows
    have the same account id, and no two have the same username. *)
Theorem reachable_table_ok w : reachable w → table_ok (table w).
Proof.
  induction 1 as [w Hempty|c w _ IH].
  - rewrite Hempty. split_and!; [constructor|constructor..].
  - by apply after_table_ok.
Qed.

Lemma reachable_table_ok_witness :
  table_ok
    (table (after (CallAddUser alice_again)
              (after (CallGenerateAccountid 3)
                 (after (CallAddUser alice) empty_world)))).
Proof.
  apply reachable_table_ok.
  do 3 apply reachable_after. by apply reachable_empty.
Defined.

Lemma NoDup_fmap_eq {A B} (f : A → B) (l : list A) x y :
  NoDup (f <$> l) → x ∈ l → y ∈ l → f x = f y → x = y.
Proof.
  intros Hnodup Hx Hy Heq.
  apply list_elem_of_lookup in Hx as [i Hi]. apply list_elem_of_lookup in Hy as [j Hj].
  assert (i = j) as ->; [|congruence].
  apply (NoDup_lookup (f <$> l) i j (f x)); [done|..];
    rewrite list_lookup_fmap; [by rewrite Hi|by rewrite Hj, Heq].
Qed.

(** X2. What [get_user] returns from a table that keeps its invariant is a
    complete record under the username asked for, and it is the record of
    the only row with that username. *)
Theorem get_user_record name w d w' :
  table_ok (table w) →
  get_user name w = (Returned (Some d), w') →
  valid_user d
  ∧ d !! "username" = Some (VStr name)
  ∧ ∀ r, r ∈ table w → row_get "username" r = Some (VStr name) → dict r = d.
Proof.
  intros (Hrows & _ & Hnames) Hrun.
  pose proof (get_user_outcome name w) as Hout. rewrite Hrun in Hout.
  simpl in Hout. destruct (next_fault w); [done|].
  destruct (next_fault (pop_fault w)); [done|].
  destruct (select_where "username" (VStr name) (table w)) as [|r0 rows] eqn:Hsel;
    [done|].
  injection Hout as ->.
  assert (Hr0 : r0 ∈ table w ∧ row_get "username" r0 = Some (VStr name)).
  { apply select_where_elem; [done|]. rewrite Hsel. by left. }
  destruct Hr0 as [Hin Hname].
  rewrite Forall_forall in Hrows. destruct (Hrows r0 Hin) as (user & Hvalid & ->).
  rewrite valid_user_dict by done.
  assert (Hlk : user !! "username" = Some (VStr name)).
  { unfold row_get in Hname. by rewrite valid_user_dict in Hname. }
  split_and!; [done..|].
  intros r Hr Hrname. rewrite <-(valid_user_dict user) by done. f_equal.
  apply (NoDup_fmap_eq (row_get "username") (table w)); [done..|congruence].
Qed.

Lemma get_user_record_witness :
  valid_user alice
  ∧ alice !! "username" = Some (VStr "alice")
  ∧ ∀ r, r ∈ table (after (CallAddUser alice) empty_world) →
         row_get "username" r = Some (VStr "alice") → dict r = alice.
Proof.
  apply (get_user_record "alice" (after (CallAddUser alice) empty_world) alice
           (get_user "alice" (after (CallAddUser alice) empty_world)).2).
  - apply after_table_ok. split_and!; constructor.
  - by vm_compute.
Defined.

(** ** What the calls leave on the trace *)

Ltac run_cases w :=
  destruct w as [t fs en c nc tr];
  unfold get_user, fault_at; unfold_M;
  unfold next_fault, pop_fault, open_conn, log; cbn;
  destruct fs as [|[e|] [|[e'|] fs]]; cbn.

(** The cases of [add_user]: the statement does not compile, or the call
    goes to the engine, which raises at [connect], at [execute], or gives
    the table's answer. *)
Ltac run_add_user w user :=
  destruct w as [t fs en c nc tr];
  unfold add_user, fault_at; unfold_M;
  unfold next_fault, pop_fault, open_conn, log;
  destruct (unconsumed user) as [|k ks]; cbn;
  [destruct fs as [|[e|] [|[e'|] fs]]; cbn; try destruct (db_insert user t);
   cbn|].






Lemma user_found_attr (result : option row) :
  bool_decide (is_Some (dict <$> result)) = bool_decide (is_Some result).
Proof. apply bool_decide_ext, fmap_is_Some. Qed.

Ltac absent_event Hin :=
  rewrite ?elem_of_cons, elem_of_nil in Hin; destruct_or?; by simplify_eq.

(** X7. The span attributes tell how the call went.  [add_user] sets
    [user.added] exactly when it returns; [get_user] sets [db.user_found]
    exactly when it returns, to whether it returns a record. *)
Theorem attributes_tell_outcome user name w :
  (∃ evs, trace (add_user user w).2 = (trace w ++ evs)%list
     ∧ ∀ b, SetAttribute "user.added" (ABool b) ∈ evs
            ↔ (add_user user w).1 = Returned () ∧ b = true)
  ∧ (∃ evs, trace (get_user name w).2 = (trace w ++ evs)%list
       ∧ ∀ b, SetAttribute "db.user_found" (ABool b) ∈ evs
              ↔ ∃ res, (get_user name w).1 = Returned res
                       ∧ b = bool_decide (is_Some res)).
Proof.
  split.
  - run_add_user w user; rewrite <-?app_assoc;
      (eexists; split; [reflexivity|]); cbn;
      intros b; (split; [intros Hin|intros [Hret ->]]);
      first [absent_event Hin | done | solve_events].
  - run_cases w; rewrite <-?app_assoc; (eexists; split; [reflexivity|]); cbn;
      intros b; (split; [intros Hin|intros (res & Hret & ->)]);
      first [ absent_event Hin | done
            | injection Hret as <-; rewrite user_found_attr; solve_events
            | idtac ].
    all: rewrite ?elem_of_cons, elem_of_nil in Hin; destruct_or?; simplify_eq.
    all: eexists; split; [done|]; by rewrite user_found_attr.
Qed.

(** ** How the calls compose *)

Lemma generate_accountid_healthy fuel w :
  healthy w → healthy (generate_accountid fuel w).2.
Proof.
  intros Hw. destruct (generate_accountid fuel w) as [r w'] eqn:Hrun.
  apply generate_accountid_runs in Hrun. simpl.
  rewrite healthy_fault_at in Hrun by done.
  destruct Hrun as (k & _ & Hend). cbn zeta in *.
  destruct (checked_retries_fields k w) as (_ & _ & Hf).
  destruct (retries_fields (next_conn w) k (connected w)) as (_ & _ & _ & Hf' & _).
  unfold healthy in *.
  destruct r as [a|e|]; destruct_and?; subst; simpl in *.
  - rewrite Hf. by apply Forall_drop.
  - rewrite Hf. by apply Forall_drop.
  - rewrite Hf'. apply Forall_drop. by destruct Hw.
Qed.

(** X8. The account id [generate_accountid] returns can be used at once:
    on a working engine, [add_user] of a valid mapping with that account
    id and a username the table does not hold returns, and [get_user] then
    returns the mapping. *)
Theorem generated_accountid_is_accepted fuel w a w1 user name :
  healthy w →
  generate_accountid fuel w = (Returned a, w1) →
  valid_user user →
  user !! "accountid" = Some (VStr a) →
  user !! "username" = Some (VStr name) →
  ¬ has_value "username" (VStr name) (table w) →
  ∃ w2 w3, add_user user w1 = (Returned (), w2)
           ∧ get_user name w2 = (Returned (Some user), w3).
Proof.
  intros Hw Hgen Hvalid Hid Hname Hfresh.
  assert (Hw1 : healthy w1).
  { pose proof (generate_accountid_healthy fuel w Hw) as H. by rewrite Hgen in H. }
  assert (Ht1 : table w1 = table w).
  { pose proof (generate_accountid_table fuel w) as H. by rewrite Hgen in H. }
  assert (Ha : ¬ has_accountid a (table w)).
  { apply generate_accountid_runs in Hgen.
    destruct (fault_at w 0); [by destruct Hgen|].
    by destruct Hgen as (k & _ & _ & _ & ? & _). }
  destruct (add_user_healthy user w1 Hw1) as (w2 & Hadd & Ht2 & Hw2).
  rewrite Ht1 in Hadd, Ht2.
  assert (Hgid : dict_get user "accountid" = VStr a).
  { unfold dict_get. by rewrite Hid. }
  assert (Hgname : dict_get user "username" = VStr name).
  { unfold dict_get. by rewrite Hname. }
  rewrite db_insert_accepts in Hadd, Ht2 by (by rewrite ?Hgid, ?Hgname).
  destruct (get_user_healthy name w2 Hw2) as (w3 & Hget & _ & _).
  exists w2, w3. split; [done|]. rewrite Hget, Ht2.
  rewrite (select_where_new _ _ user) by done. simpl.
  by rewrite valid_user_dict.
Qed.

Lemma dave_valid : valid_user dave.
Proof. split; [by vm_compute|]. repeat constructor. Qed.

Lemma generated_accountid_is_accepted_witness :
  ∃ w2 w3,
    add_user dave (generate_accountid 1 counting_world).2 = (Returned (), w2)
    ∧ get_user "dave" w2 = (Returned (Some dave), w3).
Proof.
  apply (generated_accountid_is_accepted 1 counting_world "1000000000").
  - constructor.
  - by vm_compute.
  - apply dave_valid.
  - reflexivity.
  - reflexivity.
  - apply has_value_nil.
Defined.

Lemma after_table c w : ∃ more, table (after c w) = (table w ++ more)%list.
Proof.
  destruct c as [user|fuel|name]; simpl.
  - rewrite add_user_table.
    destruct (add_user user w).1; [by eexists|exists []..]; by rewrite app_nil_r.
  - exists []. by rewrite generate_accountid_table, app_nil_r.
  - exists []. by rewrite get_user_table, app_nil_r.
Qed.

Lemma after_all_table cs w :
  ∃ more, table (after_all cs w) = (table w ++ more)%list.
Proof.
  revert w. induction cs as [|c cs IH]; intros w; simpl.
  - exists []. by rewrite app_nil_r.
  - destruct (IH (after c w)) as [more ->].
    destruct (after_table c w) as [more' ->].
    eexists. by rewrite <-app_assoc.
Qed.

Lemma after_healthy c w : healthy w → healthy (after c w).
Proof.
  intros Hw. destruct c as [user|fuel|name]; simpl.
  - destruct (add_user_healthy user w Hw) as (w' & -> & _ & Hw'). done.
  - by apply generate_accountid_healthy.
  - destruct (get_user_healthy name w Hw) as (w' & -> & _ & Hw'). done.
Qed.

Lemma after_all_healthy cs w : healthy w → healthy (after_all cs w).
Proof.
  revert w. induction cs as [|c cs IH]; intros w Hw; simpl; [done|].
  by apply IH, after_healthy.
Qed.

(** X9. An account id that has been stored is not handed out again: once
    [add_user] has stored a mapping with account id [a], then whatever
    calls follow, no [generate_accountid] returns [a]. *)
Theorem stored_accountid_not_generated_again user w w1 a cs fuel a' w2 :
  add_user user w = (Returned (), w1) →
  user !! "accountid" = Some (VStr a) →
  generate_accountid fuel (after_all cs w1) = (Returned a', w2) →
  a' ≠ a.
Proof.
  intros Hadd Hid Hgen ->.
  pose proof (add_user_table user w) as Ht1.
  rewrite Hadd in Ht1. simpl in Ht1.
  apply add_user_returned in Hadd as (Hvalid & _).
  apply generate_accountid_runs in Hgen.
  destruct (fault_at _ 0); [by destruct Hgen|].
  destruct Hgen as (k & _ & _ & _ & Hfree & _). apply Hfree.
  destruct (after_all_table cs w1) as [more ->]. rewrite Ht1.
  exists (row_of user). split.
  - rewrite !elem_of_app. left. right. by left.
  - rewrite row_get_row_of by by apply (bool_decide_unpack _).
    unfold dict_get. by rewrite Hid.
Qed.

Lemma stored_accountid_not_generated_again_witness :
  "1000000001" ≠ "1000000000".
Proof.
  apply (stored_accountid_not_generated_again
           dave counting_world (add_user dave counting_world).2 "1000000000"
           [CallGetUser "dave"; CallGenerateAccountid 0] 2 "1000000001"
           (generate_accountid 2
              (after_all [CallGetUser "dave"; CallGenerateAccountid 0]
                 (add_user dave counting_world).2)).2);
    by vm_compute.
Defined.

(** X10. A record that [get_user] returns stays: on a working engine,
    whatever calls of the three methods follow, [get_user] with the same
    username returns the same record. *)
Theorem record_stays name w d cs :
  healthy w →
  (get_user name w).1 = Returned (Some d) →
  (get_user name (after_all cs w)).1 = Returned (Some d).
Proof.
  intros Hw Hget.
  destruct (get_user_healthy name w Hw) as (w' & Hrun & _ & _).
  rewrite Hrun in Hget. simpl in Hget.
  destruct (get_user_healthy name (after_all cs w)) as (w'' & -> & _ & _);
    [by apply after_all_healthy|].
  simpl. destruct (after_all_table cs w) as [more ->].
  rewrite select_where_app.
  by destruct (select_where "username" (VStr name) (table w)).
Qed.

Lemma record_stays_witness :
  (get_user "alice"
     (after_all [CallAddUser dave; CallGenerateAccountid 2; CallAddUser alice]
        seeded_world)).1
  = Returned (Some (dict (row_of alice))).
Proof.
  apply record_stays; [constructor|by vm_compute].
Defined.

(** X11. [add_user] does not touch the records of other usernames: on a
    working engine, whether or not the mapping is stored, [get_user] with
    a username other than the mapping's returns what it returned before. *)
Theorem add_user_other_username user name w :
  healthy w →
  dict_get user "username" ≠ VStr name →
  (get_user name (add_user user w).2).1 = (get_user name w).1.
Proof.
  intros Hw Hother.
  pose proof (add_user_table user w) as Ht.
  destruct (add_user_healthy user w Hw) as (w1 & Hadd & _ & Hw1).
  rewrite Hadd in *. cbn [fst snd] in *.
  destruct (get_user_healthy name w Hw) as (w2 & -> & _ & _).
  destruct (get_user_healthy name w1 Hw1) as (w3 & -> & _ & _).
  cbn [fst]. rewrite Ht.
  destruct (db_insert user (table w)) as [e|t'] eqn:Hins; [done|].
  rewrite select_where_app.
  assert (Hnew : select_where "username" (VStr name) [row_of user] = []).
  { apply select_where_nil; [done|]. intros (r & Hr & Hname).
    apply list_elem_of_singleton in Hr as ->.
    rewrite row_get_row_of in Hname by by apply (bool_decide_unpack _).
    congruence. }
  by rewrite Hnew, app_nil_r.
Qed.

Lemma add_user_other_username_witness :
  (get_user "alice" (add_user dave seeded_world).2).1
  = (get_user "alice" seeded_world).1.
Proof.
  apply add_user_other_username; [constructor|by vm_compute].
Defined.

(** ** A mapping that leaves a column out *)

Lemma first_missing_column user (before : list column) c after :
  Forall (λ c, col_nullable c = false) (before ++ c :: after) →
  Forall (λ c, has_type (col_type c) (field user c) = true)
         (before ++ c :: after) →
  Forall (λ c', is_none (field user c') = false) before →
  is_none (field user c) = true →
  first_error (check_column user) (before ++ c :: after)
  = Some (IntegrityError (NotNullViolation (col_name c))).
Proof.
  intros Hnn Hty Hbefore Hnone.
  induction before as [|c0 before IH]; simpl in *.
  - apply Forall_cons in Hnn as [Hc _]. unfold check_column.
    by rewrite Hnone, Hc.
  - apply Forall_cons in Hnn as [Hc0 Hnn]. apply Forall_cons in Hty as [Ht0 Hty].
    apply Forall_cons in Hbefore as [Hs0 Hbefore].
    unfold check_column at 1. rewrite Hs0, Ht0. simpl. by apply IH.
Qed.

(** X12. Every column of [users] is declared non-nullable, so a mapping
    that names only columns of the table but leaves one out, or gives it
    [None], is refused: on a working engine [add_user] raises the not-null
    violation of the first column, in the order of the table definition,
    that has no value, and the table is as it was. *)
Theorem add_user_missing_column user w before c after :
  healthy w →
  unconsumed user = [] →
  Forall (λ c, has_type (col_type c) (field user c) = true) users_table →
  users_table = (before ++ c :: after)%list →
  Forall (λ c', is_none (field user c') = false) before →
  is_none (field user c) = true →
  ∃ w',
    add_user user w
    = (Raised (IntegrityError (NotNullViolation (col_name c))), w')
    ∧ table w' = table w.
Proof.
  intros Hw Hun Hty Hcols Hbefore Hnone.
  pose proof users_table_not_nullable as Hnn. rewrite Hcols in Hnn, Hty.
  pose proof (first_missing_column user before c after Hnn Hty Hbefore Hnone)
    as Hfirst.
  destruct (add_user_healthy user w Hw) as (w' & Hadd & Ht & _).
  assert (Hins : db_insert user (table w)
                 = inl (IntegrityError (NotNullViolation (col_name c)))).
  { unfold db_insert. by rewrite Hun, Hcols, Hfirst. }
  rewrite Hins in Hadd, Ht. by exists w'.
Qed.

Lemma add_user_missing_column_witness :
  ∃ w',
    add_user alice_no_zip seeded_world
    = (Raised (IntegrityError (NotNullViolation "zip")), w')
    ∧ table w' = table seeded_world.
Proof.
  apply (add_user_missing_column alice_no_zip seeded_world
           (take 9 users_table) (mk_column "zip" TString false false (Some false))
           (drop 10 users_table)).
  - constructor.
  - by vm_compute.
  - repeat constructor.
  - reflexivity.
  - repeat constructor.
  - reflexivity.
Defined.

(** ** One existence check for each candidate *)

Lemma executed_app l1 l2 :
  executed (l1 ++ l2) = (executed l1 + executed l2)%nat.
Proof. unfold executed. by rewrite filter_app, length_app. Qed.

Lemma executed_singleton ev :
  executed [ev] = if is_execute ev then 1%nat else 0%nat.
Proof. by destruct ev. Qed.

Lemma executed_retries conn k w :
  executed (trace (retries k conn w)) = (executed (trace w) + k)%nat.
Proof.
  revert w. induction k as [|k IH]; intros w; simpl; [lia|].
  rewrite IH. unfold retried, checked. simpl.
  rewrite !executed_app, !executed_singleton. simpl. lia.
Qed.

(** X14. [generate_accountid] has one statement executed for each random
    number it draws, however the call ends: a candidate is never drawn
    without being checked, and never checked twice. *)
Theorem one_check_per_candidate fuel w :
  let w' := (generate_accountid fuel w).2 in
  executed (trace w')
  = (executed (trace w) + (cursor w' - cursor w))%nat.
Proof.
  destruct (generate_accountid fuel w) as [r w'] eqn:Hrun. simpl.
  apply generate_accountid_runs in Hrun.
  destruct (fault_at w 0).
  { destruct Hrun as [_ ->]. simpl.
    rewrite !executed_app, !executed_singleton. simpl. lia. }
  destruct Hrun as (k & _ & Hend). cbn zeta in *.
  destruct (retries_fields (next_conn w) k (connected w)) as (_ & _ & Hc & _).
  pose proof (executed_retries (next_conn w) k (connected w)) as Hex.
  simpl in Hc, Hex. rewrite !executed_app, !executed_singleton in Hex.
  simpl in Hex.
  destruct r as [a|e|]; destruct_and?; subst; unfold returned, failed, checked;
    simpl; rewrite ?executed_app, ?executed_singleton, ?Hex, ?Hc; simpl; lia.
Qed.
